(** * Spline environments of social-driving: track building and sub-rollout

    A shallow embedding of [sdriving/envs/spline_env.py]: the two classes
    [RoadIntersectionSplineEnv] (full 2-D offsets, one waypoint per outer
    [step]) and [RoadIntersectionLeftRightControlEnv] (one scalar offset for
    the whole track).

    Conventions of the embedding.
    - Python floats and tensor entries are rationals ([Q]); rounding, NaN and
      infinities are outside the model: a tensor divided by zero (inf or nan
      in torch) is [0] as it is in [Q].  A Python float divided by zero
      raises [ZeroDivisionError], and that is modelled.
    - A Python exception is the [Raise] result of the [outcome] monad; the
      partially mutated state of a call that raises is not kept.
    - The [while not done] loop runs on fuel; running out is [OutOfFuel].
    - Tensors that share storage are references ([tref]) resolved against
      the agent record, so that an in-place update is seen through every
      view of the storage.
    - The [actions] dict of a [step] is the list of its items in iteration
      order; the agent table and the reward dicts are finite maps.
    - The base class [RoadIntersectionControlEnv], the low-level policy and
      the dynamics model are not part of the file embedded here; they enter
      as the operations of the class [BaseEnv].

    Left out, as nothing below depends on them: the observation spaces,
    [post_process_rewards] (it returns at once), [distance_reward_function]
    and the observation of the left/right variant (it divides by pi). *)

From Stdlib Require Import Ascii QArith Qround Lqa.
From stdpp Require Import gmap strings list fin_maps.

Local Open Scope Z_scope.

(** ** Exceptions and results *)

Inductive exn : Type :=
| IndexError
| KeyError
| TypeError
| ValueError
| ZeroDivisionError.

Inductive outcome (A : Type) : Type :=
| Ok (a : A)
| Raise (e : exn)
| OutOfFuel.

Arguments Ok {A} a.
Arguments Raise {A} e.
Arguments OutOfFuel {A}.

(** Sequencing: the first exception (or the exhausted fuel) ends the call.
    With these instances stdpp's [x ← m; k] is the bind of [outcome]. *)
#[global] Instance outcome_ret : MRet outcome := λ A a, Ok a.
#[global] Instance outcome_bind : MBind outcome := λ A B k m,
  match m with
  | Ok a => k a
  | Raise e => Raise e
  | OutOfFuel => OutOfFuel
  end.

(** [d[k]] on a dict: a missing key raises [KeyError]. *)
Definition getitem {V : Type} (d : gmap string V) (k : string) : outcome V :=
  match d !! k with
  | Some v => Ok v
  | None => Raise KeyError
  end.

(** ** Python list indexing

    [l[i]] accepts [-len(l) <= i < len(l)]: a negative index counts from
    the end.  Anything else raises [IndexError]. *)

Definition py_norm (len : nat) (i : Z) : option nat :=
  let n := Z.of_nat len in
  if (0 <=? i) && (i <? n) then Some (Z.to_nat i)
  else if (- n <=? i) && (i <? 0) then Some (Z.to_nat (n + i))
  else None.

Definition py_index {A : Type} (l : list A) (i : Z) : outcome A :=
  match py_norm (length l) i with
  | Some k =>
      match l !! k with
      | Some a => Ok a
      | None => Raise IndexError
      end
  | None => Raise IndexError
  end.

(** ** Tensors *)

(** A 1-D tensor. *)
Definition tensor : Type := list Q.

(** A 2-D point, the rows of a track. *)
Definition point : Type := (Q * Q)%type.

Definition padd (p d : point) : point := ((p.1 + d.1)%Q, (p.2 + d.2)%Q).

(** [np.arange(start, stop, step)]: [ceil((stop - start) / step)] values
    [start + i * step]. *)
Definition arange (start stop step : Q) : list Q :=
  let n := Z.to_nat (Qceiling ((stop - start) / step)) in
  (λ i : nat, (start + inject_Z (Z.of_nat i) * step)%Q) <$> seq 0 n.

(** [itertools.product(xs, ys)]: the first component varies slowest. *)
Definition product {A B : Type} (xs : list A) (ys : list B) : list (A * B) :=
  x ← xs; (λ y, (x, y)) <$> ys.

(** [ac * self.width / 2] on a 2-D offset. *)
Definition scale_offset (width : Q) (ac : point) : point :=
  ((ac.1 * width / 2)%Q, (ac.2 * width / 2)%Q).

(** ** Action catalogs *)

Inductive space : Type :=
| Discrete (n : nat).

(** [RoadIntersectionSplineEnv.__init__]: the accelerations of the
    low-level controller, [np.arange(-1.5, 1.75, 0.25)]. *)
Definition accln_control_actions_list : list Q :=
  arange (-1.5) 1.75 0.25.

(** [RoadIntersectionSplineEnv.configure_action_list]. *)
Definition actions_list : list point :=
  product (arange (-0.75) 0.76 0.25) (arange (-0.75) 0.76 0.25).

(** [RoadIntersectionLeftRightControlEnv.configure_action_list]. *)
Definition lr_actions_list : list Q := [-0.5; 0.0; 0.5]%Q.

(** [get_action_space], for either catalog. *)
Definition get_action_space {A : Type} (catalog : list A) : space :=
  Discrete (length catalog).

(** ** The dummy point *)

Definition Qgtb (a b : Q) : bool :=
  match (a ?= b)%Q with Gt => true | _ => false end.
Definition Qltb (a b : Q) : bool :=
  match (a ?= b)%Q with Lt => true | _ => false end.

(** [get_dummy_point]: the first violated bound, tried in the order
    [+x], [-x], [+y], [-y], decides the result; when none is violated the
    Python function falls off its end and returns [None]. *)
Definition get_dummy_point (width length : Q) (pt : point) : option point :=
  let '(x, y) := pt in
  if Qgtb x (width / 2) then Some ((length + width / 2)%Q, y)
  else if Qltb x (- width / 2) then Some ((- (length + width / 2))%Q, y)
  else if Qgtb y (width / 2) then Some (x, (length + width / 2)%Q)
  else if Qltb y (- width / 2) then Some (x, (- (length + width / 2))%Q)
  else None.

Arguments get_dummy_point : simpl never.
Arguments padd : simpl never.
Arguments scale_offset : simpl never.

Definition Qeqp (p q : point) : Prop := (p.1 == q.1)%Q ∧ (p.2 == q.2)%Q.


(** ** Agent records *)

Record vehicle_state : Type := Vehicle {
  position : point;
  speed : Q;
  orientation : Q;
}.

(** An intermediate goal: a target-state tensor of at least two entries,
    its first two ([[:2]]) being the point. *)
Record goal : Type := Goal {
  goal_xy : point;
  goal_rest : tensor;
}.

(** What a track entry or [previous_start_point] refers to: a tensor of its
    own, a view of the first two entries of an intermediate goal, or a view
    of the vehicle's position. *)
Inductive tref : Type :=
| Fresh (p : point)
| GoalView (i : nat)
| PosView.

(** The dynamics model is known by its contract only: [register_track]
    and the call [dynamics(state, action)].  Its state is the history of
    the tracks registered with it. *)
Definition dynamics_model : Type := list (list point * bool).

Definition register_track (d : dynamics_model) (track : list point)
    (dummy_point : bool) : dynamics_model :=
  d ++ [(track, dummy_point)].

(** [self.agents[a_id]].  A track entry is [None] where [get_dummy_point]
    returned [None]. *)
Record agent : Type := Agent {
  vehicle : vehicle_state;
  dynamics : dynamics_model;
  road_name : string;
  intermediate_goals : list goal;
  track_point : Z;
  previous_start_point : tref;
  track : list (option tref);
}.

Definition set_intermediate_goals (gs : list goal) (ag : agent) : agent :=
  Agent (vehicle ag) (dynamics ag) (road_name ag) gs (track_point ag)
        (previous_start_point ag) (track ag).
Definition set_track_point (tp : Z) (ag : agent) : agent :=
  Agent (vehicle ag) (dynamics ag) (road_name ag) (intermediate_goals ag) tp
        (previous_start_point ag) (track ag).
Definition set_previous_start_point (r : tref) (ag : agent) : agent :=
  Agent (vehicle ag) (dynamics ag) (road_name ag) (intermediate_goals ag)
        (track_point ag) r (track ag).
Definition set_track (tr : list (option tref)) (ag : agent) : agent :=
  Agent (vehicle ag) (dynamics ag) (road_name ag) (intermediate_goals ag)
        (track_point ag) (previous_start_point ag) tr.
Definition set_dynamics (d : dynamics_model) (ag : agent) : agent :=
  Agent (vehicle ag) d (road_name ag) (intermediate_goals ag)
        (track_point ag) (previous_start_point ag) (track ag).

(** The point a reference holds now.  The list of goals never changes its
    length, so a [GoalView] made by [step] always finds its goal. *)
Definition deref (ag : agent) (r : tref) : point :=
  match r with
  | Fresh p => p
  | GoalView i =>
      match intermediate_goals ag !! i with
      | Some g => goal_xy g
      | None => (0, 0)%Q
      end
  | PosView => position (vehicle ag)
  end.

(** [torch.cat(track, dim=0)]: a fresh tensor of the rows as they are now;
    a [None] among them raises [TypeError]. *)
Fixpoint torch_cat (ag : agent) (tr : list (option tref)) : outcome (list point) :=
  match tr with
  | [] => Ok []
  | None :: _ => Raise TypeError
  | Some r :: rest => ps ← torch_cat ag rest; Ok (deref ag r :: ps)
  end.

(** ** Per-agent operations of the full-offset variant *)

(** The body of the [for] loop of [RoadIntersectionSplineEnv.step]: the
    returned flag is [True] when this call completed the track.  [pt] is a
    view of the goal, so [pt += deviation] writes into the goal, and the
    track entry and [previous_start_point] are views of the same storage;
    [i] is the position the Python index [track_point - 1] stands for. *)
Definition step_extend (width length : Q) (ag : agent) (action : Z)
    : outcome (bool * agent) :=
  let goals := intermediate_goals ag in
  g ← py_index goals (track_point ag - 1);
  let i := default 0%nat (py_norm (List.length goals) (track_point ag - 1)) in
  ac ← py_index actions_list action;
  let deviation := scale_offset width ac in
  let pt := padd (goal_xy g) deviation in
  let ag := set_intermediate_goals (<[i := Goal pt (goal_rest g)]> goals) ag in
  let ag := set_previous_start_point (GoalView i) ag in
  let ag := set_track (track ag ++ [Some (GoalView i)]) ag in
  if (List.length (track ag) =? List.length (intermediate_goals ag) + 2)%nat then
    let ag := set_track (track ag ++ [Fresh <$> get_dummy_point width length pt]) ag in
    tr ← torch_cat ag (track ag);
    Ok (true, set_dynamics (register_track (dynamics ag) tr true) ag)
  else Ok (false, ag).

(** [RoadIntersectionSplineEnv.get_state_single_agent].  The entries of
    the result are evaluated in order: the two tensors divided by [lw], then
    the Python floats [1 / self.width] and [1 / self.length], each of which
    raises [ZeroDivisionError] on a zero denominator. *)
Definition get_state_single_agent (width length : Q) (ag : agent)
    : outcome (option tensor * agent) :=
  if Z.of_nat (List.length (intermediate_goals ag)) <=? track_point ag
  then Ok (None, ag)
  else
    g ← py_index (intermediate_goals ag) (track_point ag);
    let next_point := goal_xy g in
    let prev := deref ag (previous_start_point ag) in
    let ag := set_track_point (track_point ag + 1) ag in
    let lw := (length + width / 2)%Q in
    if Qeq_bool width 0 then Raise ZeroDivisionError
    else if Qeq_bool length 0 then Raise ZeroDivisionError
    else
      Ok (Some [prev.1 / lw; prev.2 / lw; next_point.1 / lw; next_point.2 / lw;
                1 / width; 1 / length]%Q, ag).

(** ** Per-agent operations of the left/right variant *)

(** [int(s[-1])]: the last character, read as a decimal digit. *)
Fixpoint last_char (s : string) : option ascii :=
  match s with
  | EmptyString => None
  | String c EmptyString => Some c
  | String _ rest => last_char rest
  end.

Definition int_of_last_char (s : string) : outcome Z :=
  match last_char s with
  | None => Raise IndexError
  | Some c =>
      let n := Z.of_nat (nat_of_ascii c) in
      if (48 <=? n) && (n <=? 57) then Ok (n - 48) else Raise ValueError
  end.

(** [pt[coord] = pt[coord] + deviation] on a clone of the goal's point. *)
Definition offset_coord (coord : Z) (deviation : Q) (p : point) : point :=
  if coord =? 0 then ((p.1 + deviation)%Q, p.2) else (p.1, (p.2 + deviation)%Q).

(** The inner [for pt in intermediate_goals] loop: the points it appends. *)
Fixpoint lr_offset_goals (width : Q) (coord action : Z) (goals : list goal)
    : outcome (list point) :=
  match goals with
  | [] => Ok []
  | g :: rest =>
      ac ← py_index lr_actions_list action;
      let deviation := (ac * width / 2)%Q in
      ps ← lr_offset_goals width coord action rest;
      Ok (offset_coord coord deviation (goal_xy g) :: ps)
  end.

(** The body of the [for] loop of
    [RoadIntersectionLeftRightControlEnv.step].  [track[-1][0]] raises
    [TypeError] on an entry that is [None]; the catalog is indexed inside
    the loop over the goals, so not at all when there is no goal. *)
Definition lr_step_extend (width length : Q) (ag : agent) (action : Z)
    : outcome agent :=
  d ← int_of_last_char (road_name ag);
  let coord := (d + 1) mod 2 in
  ps ← lr_offset_goals width coord action (intermediate_goals ag);
  let ag := set_track (track ag ++ ((λ p, Some (Fresh p)) <$> ps)) ag in
  lst ← py_index (track ag) (-1);
  r ← from_option Ok (Raise TypeError) lst;
  let ag := set_track
    (track ag ++ [Fresh <$> get_dummy_point width length (deref ag r)]) ag in
  tr ← torch_cat ag (track ag);
  Ok (set_dynamics (register_track (dynamics ag) tr true) ag).

(** ** The environment *)

(** What an outer [step] returns as its reward: the scalar [0.0] of a tick
    that starts no rollout, or the map of accumulated rewards. *)
Inductive reward : Type :=
| RScalar (r : Q)
| RMap (m : gmap string Q).

(** [B] is the state the base environment keeps for itself and [V] the
    values handed through without being inspected here (observations,
    low-level actions, the arguments and result of [add_vehicle]). *)
Record env (B V : Type) : Type := Env {
  agents : gmap string agent;
  curr_actions : gmap string tensor;
  prev_state : gmap string V;
  width : Q;
  length : Q;
  base : B;
}.

Arguments Env {B V}.
Arguments agents {B V}.
Arguments curr_actions {B V}.
Arguments prev_state {B V}.
Arguments width {B V}.
Arguments length {B V}.
Arguments base {B V}.

(** [(observation, reward, done, info)]; [info] is always the empty dict. *)
Record step_result (V : Type) : Type := StepResult {
  sr_obs : option V;
  sr_reward : reward;
  sr_done : bool;
  sr_info : gmap string V;
}.

Arguments StepResult {V}.
Arguments sr_obs {V}.
Arguments sr_reward {V}.
Arguments sr_done {V}.
Arguments sr_info {V}.

(** The collaborators the two classes call and do not define: the methods
    inherited from [RoadIntersectionControlEnv], the frozen low-level
    policy and the call of a dynamics model.  They are taken as total
    functions of the environment. *)
Class BaseEnv (B V : Type) : Type := {
  get_agent_ids_list : env B V → list string;
  get_state : env B V → V * env B V;
  super_get_state_single_agent : env B V → string → V * env B V;
  (** [super().step(actions)]: the rewards, [dones["__all__"]], the new state. *)
  super_step : env B V → gmap string V → gmap string Q * bool * env B V;
  super_add_vehicle : env B V → string → V → V * env B V;
  (** [self.accln_control.act(obs, deterministic)]. *)
  accln_control_act : V → bool → V;
  (** [dynamics(state, action)]. *)
  dynamics_call : dynamics_model → tensor → Q → tensor;
}.

Section Environment.
Context {B V : Type} `{!BaseEnv B V}.

Definition set_agents (ags : gmap string agent) (e : env B V) : env B V :=
  Env ags (curr_actions e) (prev_state e) (width e) (length e) (base e).
Definition set_curr_actions (ca : gmap string tensor) (e : env B V) : env B V :=
  Env (agents e) ca (prev_state e) (width e) (length e) (base e).
Definition set_prev_state (ps : gmap string V) (e : env B V) : env B V :=
  Env (agents e) (curr_actions e) ps (width e) (length e) (base e).

(** [RoadIntersectionSplineEnv.add_vehicle]. *)
Definition add_vehicle (e : env B V) (a_id : string) (args : V)
    : outcome (V * env B V) :=
  let '(ret_val, e) := super_add_vehicle e a_id args in
  ag ← getitem (agents e) a_id;
  let ag := set_track_point 0 ag in
  let ag := set_previous_start_point PosView ag in
  let start := deref ag (previous_start_point ag) in
  let ag := set_track
    [Fresh <$> get_dummy_point (width e) (length e) start; Some PosView] ag in
  Ok (ret_val, set_agents (<[a_id := ag]> (agents e)) e).

(** The loop of [transform_state_action_single_agent]: [n] more states,
    each the dynamics applied to the last one. *)
Fixpoint nominal_loop (n : nat) (d : dynamics_model) (action : Q)
    (nominal_states nominal_actions : list tensor) : list tensor * list tensor :=
  match n with
  | O => (nominal_states, nominal_actions)
  | S n =>
      let start_state := default [] (last nominal_states) in
      let new_state := dynamics_call d start_state action in
      nominal_loop n d action (nominal_states ++ [new_state])
                   (nominal_actions ++ [[action]])
  end.

(** [RoadIntersectionSplineEnv.transform_state_action_single_agent]: the
    result is [(na, ns, (nominal_states, nominal_actions))]. *)
Definition transform_state_action_single_agent (e : env B V) (a_id : string)
    (action : Z) (state : V) (timesteps : Z)
    : outcome ((tensor * tensor * (list tensor * list tensor)) * env B V) :=
  ag ← getitem (agents e) a_id;
  let '(x, y) := position (vehicle ag) in
  let v := speed (vehicle ag) in
  let t := orientation (vehicle ag) in
  let start_state := [x; y; v; t] in
  action ← py_index accln_control_actions_list action;
  let ex := nominal_loop (Z.to_nat timesteps) (dynamics ag) action
                         [start_state] [[action]] in
  let na := replicate 4 0%Q in
  let ns := replicate 4 0%Q in
  Ok ((na, ns, ex), set_curr_actions (<[a_id := [action]]> (curr_actions e)) e).

(** [RoadIntersectionSplineEnv.transform_state_action]. *)
Fixpoint transform_state_action_loop (e : env B V) (ids : list string)
    (actions : gmap string Z) (states : gmap string V) (timesteps : Z)
    (acc : gmap string tensor * gmap string tensor
           * gmap string (list tensor * list tensor))
    : outcome (gmap string tensor * gmap string tensor
               * gmap string (list tensor * list tensor) * env B V) :=
  match ids with
  | [] => Ok (acc, e)
  | id :: ids =>
      let '(nactions, nstates, extras) := acc in
      action ← getitem actions id;
      state ← getitem states id;
      '((na, ns, ex), e) ←
        transform_state_action_single_agent e id action state timesteps;
      transform_state_action_loop e ids actions states timesteps
        (<[id := na]> nactions, <[id := ns]> nstates, <[id := ex]> extras)
  end.

Definition transform_state_action (e : env B V) (actions : gmap string Z)
    (states : gmap string V) (timesteps : Z) :=
  transform_state_action_loop e (get_agent_ids_list e) actions states
    timesteps (∅, ∅, ∅).

(** [RoadIntersectionSplineEnv.get_internal_state]. *)
Fixpoint get_internal_state_loop (e : env B V) (agent_ids : list string)
    (states : gmap string V) : gmap string V * env B V :=
  match agent_ids with
  | [] => (states, e)
  | a_id :: agent_ids =>
      let '(obs, e) := super_get_state_single_agent e a_id in
      get_internal_state_loop e agent_ids (<[a_id := obs]> states)
  end.

Definition get_internal_state (e : env B V) : gmap string V * env B V :=
  let '(states, e) := get_internal_state_loop e (get_agent_ids_list e) ∅ in
  (states, set_prev_state states e).

(** One pass of the body of [while not done], up to the base step: the
    rewards of the tick, [dones["__all__"]] and the new state. *)
Definition tick (e : env B V) : gmap string Q * bool * env B V :=
  let '(states, e) := get_internal_state e in
  let actions := (λ obs, accln_control_act obs true) <$> states in
  super_step e actions.

(** [rewards[a_id] += r]. *)
Definition add_reward (rewards : gmap string Q) (item : string * Q)
    : outcome (gmap string Q) :=
  old ← getitem rewards item.1;
  Ok (<[item.1 := (old + item.2)%Q]> rewards).

(** [for a_id, r in rew.items(): rewards[a_id] += r]. *)
Fixpoint accumulate (rewards : gmap string Q) (items : list (string * Q))
    : outcome (gmap string Q) :=
  match items with
  | [] => Ok rewards
  | item :: items => rewards ← add_reward rewards item; accumulate rewards items
  end.

(** [rewards = {a_id: 0.0 for a_id in self.get_agent_ids_list()}]. *)
Definition init_rewards (e : env B V) : gmap string Q :=
  list_to_map ((λ a_id, (a_id, 0%Q)) <$> get_agent_ids_list e).

(** The [while not done] loop, shared by the two [step] methods. *)
Fixpoint rollout (fuel : nat) (e : env B V) (rewards : gmap string Q)
    : outcome (gmap string Q * env B V) :=
  match fuel with
  | O => OutOfFuel
  | S fuel =>
      let '(rew, done, e) := tick e in
      rewards ← accumulate rewards (map_to_list rew);
      if done then Ok (rewards, e) else rollout fuel e rewards
  end.

(** The [for a_id, action in actions.items()] loop of
    [RoadIntersectionSplineEnv.step]; [actions] lists the items of the
    dict in its order. *)
Fixpoint step_track_loop (e : env B V) (actions : list (string * Z))
    (completed : bool) : outcome (bool * env B V) :=
  match actions with
  | [] => Ok (completed, e)
  | (a_id, action) :: actions =>
      ag ← getitem (agents e) a_id;
      '(c, ag) ← step_extend (width e) (length e) ag action;
      step_track_loop (set_agents (<[a_id := ag]> (agents e)) e) actions
                      (c || completed)
  end.

(** [RoadIntersectionSplineEnv.step]. *)
Definition step (fuel : nat) (e : env B V) (actions : list (string * Z))
    : outcome (step_result V * env B V) :=
  '(completed, e) ← step_track_loop e actions false;
  if negb completed then
    let '(obs, e) := get_state e in
    Ok (StepResult (Some obs) (RScalar 0.0) false ∅, e)
  else
    '(rewards, e) ← rollout fuel e (init_rewards e);
    Ok (StepResult None (RMap rewards) true ∅, e).

(** The [for] loop of [RoadIntersectionLeftRightControlEnv.step]. *)
Fixpoint lr_step_track_loop (e : env B V) (actions : list (string * Z))
    : outcome (env B V) :=
  match actions with
  | [] => Ok e
  | (a_id, action) :: actions =>
      ag ← getitem (agents e) a_id;
      ag ← lr_step_extend (width e) (length e) ag action;
      lr_step_track_loop (set_agents (<[a_id := ag]> (agents e)) e) actions
  end.

(** [RoadIntersectionLeftRightControlEnv.step]. *)
Definition lr_step (fuel : nat) (e : env B V) (actions : list (string * Z))
    : outcome (step_result V * env B V) :=
  e ← lr_step_track_loop e actions;
  '(rewards, e) ← rollout fuel e (init_rewards e);
  Ok (StepResult None (RMap rewards) true ∅, e).

End Environment.

(** ** Notions used to state the properties *)

(** The seven offsets of one axis of the full-offset grid. *)
Definition grid_axis : list Q := [-0.75; -0.5; -0.25; 0; 0.25; 0.5; 0.75]%Q.

(** The point is outside the drivable square on exactly one axis. *)
Definition x_violated (width : Q) (pt : point) : Prop :=
  (width / 2 < pt.1)%Q ∨ (pt.1 < - width / 2)%Q.
Definition y_violated (width : Q) (pt : point) : Prop :=
  (width / 2 < pt.2)%Q ∨ (pt.2 < - width / 2)%Q.
Definition one_axis_violated (width : Q) (pt : point) : Prop :=
  (x_violated width pt ∧ ¬ y_violated width pt) ∨
  (¬ x_violated width pt ∧ y_violated width pt).



(** The calls a caller makes on one agent of the full-offset variant: a
    track extension (the loop body of [step]) or an observation read
    ([get_state_single_agent]). *)
Inductive call : Type :=
| Extend (action : Z)
| Observe.

Definition run_call (width length : Q) (ag : agent) (c : call) : outcome agent :=
  match c with
  | Extend action => '(_, ag) ← step_extend width length ag action; Ok ag
  | Observe => '(_, ag) ← get_state_single_agent width length ag; Ok ag
  end.

Fixpoint run_calls (width length : Q) (ag : agent) (cs : list call)
    : outcome agent :=
  match cs with
  | [] => Ok ag
  | c :: cs => ag ← run_call width length ag c; run_calls width length ag cs
  end.




(** The next extension brings the track to [len(intermediate_goals) + 2]. *)
Definition completes_now (ag : agent) : bool :=
  (List.length (track ag) + 1 =? List.length (intermediate_goals ag) + 2)%nat.

(** The track has its trailing dummy: leading dummy, start, one waypoint
    per goal, trailing dummy. *)
Definition track_complete (ag : agent) : bool :=
  (List.length (track ag) =? List.length (intermediate_goals ag) + 3)%nat.

Section Traces.
Context {B V : Type} `{!BaseEnv B V}.

(** The reward maps the base environment returns tick by tick, up to and
    with the first tick that reports [done]; [None] when [fuel] ticks do
    not reach it. *)
Fixpoint ticks (fuel : nat) (e : env B V) : option (list (gmap string Q)) :=
  match fuel with
  | O => None
  | S fuel =>
      let '(rew, done, e) := tick e in
      if done then Some [rew] else (rew ::.) <$> ticks fuel e
  end.

End Traces.

(** ** A small base environment

    A concrete collaborator on which the operations can be run: its own
    state is a countdown of physics ticks, every agent earns [1] per tick,
    and the episode is done when the countdown reaches [0]. *)

Definition toy_ids (e : env nat tensor) : list string :=
  (map_to_list (agents e)).*1.

Definition toy_step (e : env nat tensor) (actions : gmap string tensor)
    : gmap string Q * bool * env nat tensor :=
  ((λ _, 1%Q) <$> agents e, (base e =? 0)%nat,
   Env (agents e) (curr_actions e) (prev_state e) (width e) (length e)
       (pred (base e))).

(** The arguments of the toy [add_vehicle]: the position, then the
    intermediate goals, two entries each. *)
Fixpoint toy_goals (t : tensor) : list goal :=
  match t with
  | x :: y :: rest => Goal (x, y) [] :: toy_goals rest
  | _ => []
  end.

Definition toy_agent (args : tensor) : agent :=
  match args with
  | x :: y :: rest =>
      Agent (Vehicle (x, y) 0 0) [] "traffic_signal_world_road0"
            (toy_goals rest) 0 PosView []
  | _ => Agent (Vehicle (0, 0)%Q 0 0) [] "traffic_signal_world_road0" []
               0 PosView []
  end.

Definition toy_add_vehicle (e : env nat tensor) (a_id : string) (args : tensor)
    : tensor * env nat tensor :=
  ([], Env (<[a_id := toy_agent args]> (agents e))
           (curr_actions e) (prev_state e) (width e) (length e) (base e)).

#[local] Instance toy_base : BaseEnv nat tensor := {|
  get_agent_ids_list := toy_ids;
  get_state e := ([], e);
  super_get_state_single_agent e a_id := ([], e);
  super_step := toy_step;
  super_add_vehicle := toy_add_vehicle;
  accln_control_act obs deterministic := obs;
  dynamics_call d state action := (λ x, (x + action)%Q) <$> state;
|}.

(** An intersection of width 2 and length 10 whose episodes last two
    physics ticks, and the agents met in the examples. *)
Definition demo_env : env nat tensor := Env ∅ ∅ ∅ 2 10 1%nat.

(** An agent entering from the south with two intermediate goals, as
    [add_vehicle] leaves it. *)
Definition demo_agent : agent :=
  Agent (Vehicle (0, -5)%Q 0 0) [] "traffic_signal_world_road0"
        [Goal (0, 3)%Q []; Goal (3, 0)%Q []] 0 PosView
        [Some (Fresh (0, - (10 + 2 / 2))%Q); Some PosView].

(** The arguments that make the toy [add_vehicle] create [demo_agent], and
    the environment it then leaves. *)
Definition demo_args : tensor := [0; -5; 0; 3; 3; 0]%Q.

Definition demo_env_a : env nat tensor :=
  Env {["a" := demo_agent]} ∅ ∅ 2 10 1%nat.

(** An agent with one intermediate goal only, and an environment holding
    it as "a" next to [demo_agent] as "b". *)
Definition demo_agent_short : agent :=
  Agent (Vehicle (0, -5)%Q 0 0) [] "traffic_signal_world_road0"
        [Goal (0, 3)%Q []] 0 PosView
        [Some (Fresh (0, - (10 + 2 / 2))%Q); Some PosView].

Definition demo_env_ab : env nat tensor :=
  Env (<["a" := demo_agent_short]> {["b" := demo_agent]}) ∅ ∅ 2 10 1%nat.

(** ** Observation spaces *)

(** [gym.spaces.Box(low, high)]. *)
Record box : Type := Box {
  low : list Q;
  high : list Q;
}.

(** [RoadIntersectionSplineEnv.get_observation_space]. *)
Definition get_observation_space : box :=
  Box [-1.0; -1.0; -1.0; -1.0; 0.0; 0.0]%Q [1.0; 1.0; 1.0; 1.0; 1.0; 1.0]%Q.

(** [RoadIntersectionLeftRightControlEnv.get_observation_space]. *)
Definition lr_get_observation_space : box :=
  Box [-1.0; -1.0; -1.0]%Q [1.0; 1.0; 1.0]%Q.

(** A tensor lies in a box: entry by entry between [low] and [high]. *)
Definition in_box (b : box) (t : tensor) : Prop :=
  Forall2 Qle (low b) t ∧ Forall2 Qle t (high b).

(** ** The registry of [sdriving/environments/__init__.py]

    The classes are imported from modules that are not embedded here: a
    class is a value of [C], [issubclass] is Python's, and [clsmembers] is
    what [inspect.getmembers(module, inspect.isclass)] returns, the pairs of
    a name bound in the module and the class it is bound to. *)
Section Registry.
Context {C : Type} (issubclass : C → C → bool).

(** [for clsname, cls in clsmembers: if issubclass(cls, base):
    REGISTRY[clsname] = cls], from the empty dict. *)
Fixpoint registry_loop (base : C) (clsmembers : list (string * C))
    (REGISTRY : gmap string C) : gmap string C :=
  match clsmembers with
  | [] => REGISTRY
  | (clsname, cls) :: clsmembers =>
      registry_loop base clsmembers
        (if issubclass cls base then <[clsname := cls]> REGISTRY else REGISTRY)
  end.

Definition build_registry (base : C) (clsmembers : list (string * C))
    : gmap string C :=
  registry_loop base clsmembers ∅.

End Registry.

(** The names the module binds to classes, in the order of
    [inspect.getmembers] (sorted by name). *)
Definition registry_class_names : list string :=
  ["BaseMultiAgentDrivingEnvironment";
   "MultiAgentIntersectionSplineAccelerationDiscreteEnvironment";
   "MultiAgentNuscenesIntersectionDrivingDiscreteEnvironment";
   "MultiAgentNuscenesIntersectionDrivingEnvironment";
   "MultiAgentOneShotSplinePredictionEnvironment";
   "MultiAgentRoadIntersectionBicycleKinematicsDiscreteEnvironment";
   "MultiAgentRoadIntersectionBicycleKinematicsEnvironment";
   "MultiAgentRoadIntersectionFixedTrackDiscreteEnvironment";
   "MultiAgentRoadIntersectionFixedTrackEnvironment"].

(** [clsmembers] of the module, for the classes [ns] binds the names to;
    the base class is the one bound to the first name. *)
Definition module_clsmembers {C : Type} (ns : string → C) : list (string * C) :=
  (λ n, (n, ns n)) <$> registry_class_names.

Definition module_registry {C : Type} (issubclass : C → C → bool)
    (ns : string → C) : gmap string C :=
  build_registry issubclass (ns "BaseMultiAgentDrivingEnvironment")
                 (module_clsmembers ns).

(** ** More notions used to state the properties *)

(** The goal after [pt += deviation] for the catalog entry [ac]. *)
Definition shift_goal (width : Q) (g : goal) (ac : point) : goal :=
  Goal (padd (goal_xy g) (scale_offset width ac)) (goal_rest g).

(** The calls of an episode run as [reset] and [step] run it: an
    observation read before every extension. *)
Definition protocol (acts : list Z) : list call :=
  a ← acts; [Observe; Extend a].

Fixpoint observe_count (cs : list call) : nat :=
  match cs with
  | [] => 0
  | Extend _ :: cs => observe_count cs
  | Observe :: cs => S (observe_count cs)
  end.

(** Both coordinates of a point lie in [[-m, m]]. *)
Definition within (m : Q) (p : point) : Prop :=
  (- m <= p.1)%Q ∧ (p.1 <= m)%Q ∧ (- m <= p.2)%Q ∧ (p.2 <= m)%Q.

(** A toy class hierarchy for the registry: class [0] is the base, the
    even numbers are its subclasses. *)
Definition toy_issubclass (c base : nat) : bool :=
  (c =? base)%nat || (Nat.even c && (base =? 0)%nat).

(** * Properties *)

(** ** Catalogs *)

Lemma Qgtb_true a b : Qgtb a b = true ↔ (b < a)%Q.
Proof.
  unfold Qgtb. rewrite Qgt_alt. destruct (a ?= b)%Q; split; congruence.
Qed.

Lemma Qltb_true a b : Qltb a b = true ↔ (a < b)%Q.
Proof.
  unfold Qltb. rewrite Qlt_alt. destruct (a ?= b)%Q; split; congruence.
Qed.

Lemma Qgtb_false a b : Qgtb a b = false ↔ (a <= b)%Q.
Proof.
  rewrite <- not_true_iff_false, Qgtb_true. split.
  - apply Qnot_lt_le.
  - apply Qle_not_lt.
Qed.

Lemma Qltb_false a b : Qltb a b = false ↔ (b <= a)%Q.
Proof.
  rewrite <- not_true_iff_false, Qltb_true. split.
  - apply Qnot_lt_le.
  - apply Qle_not_lt.
Qed.


(** C3, as the code has it: the full-offset catalog is the Cartesian grid
    of the seven offsets -0.75, -0.5, ..., 0.75 (step 0.25) on both axes,
    49 entries, and its action space is Discrete(49); the left/right
    catalog is the three scalars -0.5, 0, 0.5 and its action space is
    Discrete(3). *)
Theorem action_catalogs :
  Forall2 Qeq (arange (-0.75) 0.76 0.25) grid_axis ∧
  Forall2 Qeqp actions_list (product grid_axis grid_axis) ∧
  get_action_space actions_list = Discrete 49 ∧
  Forall2 Qeq lr_actions_list [-1 # 2; 0; 1 # 2]%Q ∧
  get_action_space lr_actions_list = Discrete 3.
Proof.
  split; [|split; [|split; [|split]]]; try by vm_compute.
  3: by repeat (constructor; [by vm_compute|]).
  - set (l := arange _ _ _). vm_compute in l. subst l. unfold grid_axis.
    repeat (constructor; [by vm_compute|]). constructor.
  - set (l := actions_list). vm_compute in l. subst l.
    set (l := product _ _). vm_compute in l. subst l.
    repeat (constructor; [by vm_compute|]). constructor.
Qed.

(** C3, as stated, fails: the action space of the full-offset catalog is
    not Discrete(25). *)
Lemma action_space_not_25 : get_action_space actions_list ≠ Discrete 25.
Proof. vm_compute. discriminate. Qed.

(** ** The dummy point *)


Lemma neg_half (w : Q) : (- w / 2 == - (w / 2))%Q.
Proof. field. Qed.

Lemma inside_width_nonneg (w c : Q) :
  ¬ ((w / 2 < c)%Q ∨ (c < - w / 2)%Q) → (- w / 2 <= w / 2)%Q.
Proof.
  intros Hn. apply Qle_trans with c; apply Qnot_lt_le; intros Hlt; apply Hn; auto.
Qed.

(** C6: [get_dummy_point] pushes the violated coordinate to the far end of
    its road and keeps the other one: for [x > width/2] the result is
    [(length + width/2, y)], whatever [y]; and, for a point outside the
    square on exactly one axis, [x < -width/2] gives
    [(-(length + width/2), y)], [y > width/2] gives [(x, length + width/2)]
    and [y < -width/2] gives [(x, -(length + width/2))].  The function
    reads its arguments only and returns a tensor of its own. *)
Theorem get_dummy_point_cases (width length x y : Q) :
  ((width / 2 < x)%Q →
     get_dummy_point width length (x, y) = Some ((length + width / 2)%Q, y)) ∧
  (one_axis_violated width (x, y) →
     ((x < - width / 2)%Q →
        get_dummy_point width length (x, y)
        = Some ((- (length + width / 2))%Q, y)) ∧
     ((width / 2 < y)%Q →
        get_dummy_point width length (x, y)
        = Some (x, (length + width / 2)%Q)) ∧
     ((y < - width / 2)%Q →
        get_dummy_point width length (x, y)
        = Some (x, (- (length + width / 2))%Q))).
Proof.
  split.
  - intros Hx. unfold get_dummy_point.
    by rewrite (proj2 (Qgtb_true _ _) Hx).
  - unfold one_axis_violated, x_violated, y_violated; simpl.
    intros Hone. split; [|split].
    + intros Hx. destruct Hone as [[_ Hy]|[Hnx _]]; [|by destruct Hnx; right].
      pose proof (inside_width_nonneg _ _ Hy) as Hw.
      unfold get_dummy_point.
      rewrite (proj2 (Qgtb_false x _)), (proj2 (Qltb_true x _)); [done..|].
      apply Qlt_le_weak, Qlt_le_trans with (- width / 2)%Q; done.
    + intros Hy. destruct Hone as [[_ Hny]|[Hnx _]]; [by destruct Hny; left|].
      unfold get_dummy_point.
      rewrite (proj2 (Qgtb_false x _)), (proj2 (Qltb_false x _)),
        (proj2 (Qgtb_true y _)); [done..| |].
      * apply Qnot_lt_le. intros ?. apply Hnx. by right.
      * apply Qnot_lt_le. intros ?. apply Hnx. by left.
    + intros Hy. destruct Hone as [[_ Hny]|[Hnx _]]; [by destruct Hny; right|].
      pose proof (inside_width_nonneg _ _ Hnx) as Hw.
      unfold get_dummy_point.
      rewrite (proj2 (Qgtb_false x _)), (proj2 (Qltb_false x _)),
        (proj2 (Qgtb_false y _)), (proj2 (Qltb_true y _)); [done..| | |].
      * apply Qlt_le_weak, Qlt_le_trans with (- width / 2)%Q; done.
      * apply Qnot_lt_le. intros ?. apply Hnx. by right.
      * apply Qnot_lt_le. intros ?. apply Hnx. by left.
Qed.

(** The rule at a point south of the square, for width 2 and length 10. *)
Lemma get_dummy_point_cases_witness :
  one_axis_violated 2 (0, -3)%Q ∧
  get_dummy_point 2 10 (0, -3)%Q = Some (0, - (10 + 2 / 2))%Q.
Proof.
  assert (Hone : one_axis_violated 2 (0, -3)%Q).
  { right. split.
    - intros [H|H]; vm_compute in H; discriminate.
    - right. by vm_compute. }
  split; [exact Hone|].
  apply (proj2 (proj2 (proj2 (get_dummy_point_cases 2 10 0 (-3)) Hone))).
  by vm_compute.
Defined.

(** ** Reasoning about [outcome] and Python indexing *)

Lemma bind_Ok {A C : Type} (m : outcome A) (k : A → outcome C) (c : C) :
  m ≫= k = Ok c ↔ ∃ a, m = Ok a ∧ k a = Ok c.
Proof.
  destruct m as [a| |]; simpl; split; try done.
  - eauto.
  - by intros (a' & [= <-] & Hk).
  - by intros (? & ? & _).
  - by intros (? & ? & _).
Qed.

Ltac inv_bind H :=
  repeat match type of H with
  | _ ≫= _ = Ok _ =>
      let a := fresh "a" in
      let E := fresh "E" in
      apply bind_Ok in H as (a & E & H)
  end.

Lemma py_norm_lt (len : nat) (i : Z) (k : nat) :
  py_norm len i = Some k → (k < len)%nat.
Proof.
  unfold py_norm. intros H.
  destruct ((0 <=? i) && (i <? Z.of_nat len)) eqn:E1.
  - injection H as <-. lia.
  - destruct ((- Z.of_nat len <=? i) && (i <? 0)) eqn:E2; [|done].
    injection H as <-. lia.
Qed.

Lemma py_index_Ok {A : Type} (l : list A) (i : Z) (a : A) :
  py_index l i = Ok a ↔ ∃ k, py_norm (List.length l) i = Some k ∧ l !! k = Some a.
Proof.
  unfold py_index. destruct (py_norm _ i) as [k|] eqn:E.
  - destruct (l !! k) as [b|] eqn:El; split.
    + intros [= <-]. eauto.
    + by intros (k' & [= <-] & Hk); simplify_eq.
    + done.
    + by intros (k' & [= <-] & Hk); simplify_eq.
  - split; [done|]. by intros (? & ? & _).
Qed.

Lemma py_index_nonneg {A : Type} (l : list A) (i : Z) :
  0 ≤ i < Z.of_nat (List.length l) →
  py_norm (List.length l) i = Some (Z.to_nat i) ∧
  ∃ a, l !! Z.to_nat i = Some a ∧ py_index l i = Ok a.
Proof.
  intros Hi.
  assert (Hn : py_norm (List.length l) i = Some (Z.to_nat i)).
  { unfold py_norm.
    by rewrite (proj2 (Z.leb_le _ _)), (proj2 (Z.ltb_lt _ _)) by lia. }
  split; [done|].
  destruct (lookup_lt_is_Some_2 l (Z.to_nat i)) as [a Ha]; [lia|].
  exists a. split; [done|]. apply py_index_Ok. eauto.
Qed.

Lemma py_index_negative {A : Type} (l : list A) (i : Z) :
  - Z.of_nat (List.length l) ≤ i < 0 →
  py_index l i = py_index l (Z.of_nat (List.length l) + i).
Proof.
  intros Hi. unfold py_index, py_norm.
  rewrite (proj2 (Z.leb_gt _ _)) by lia. simpl.
  rewrite (proj2 (Z.leb_le _ _)), (proj2 (Z.ltb_lt _ _)) by lia. simpl.
  by rewrite (proj2 (Z.leb_le 0 _)), (proj2 (Z.ltb_lt _ _)) by lia.
Qed.

Lemma py_index_out_of_range {A : Type} (l : list A) (i : Z) :
  i < - Z.of_nat (List.length l) ∨ Z.of_nat (List.length l) ≤ i →
  py_index l i = Raise IndexError.
Proof.
  intros Hi. unfold py_index, py_norm.
  destruct Hi.
  - rewrite (proj2 (Z.leb_gt 0 _)) by lia. simpl.
    by rewrite (proj2 (Z.leb_gt _ _)) by lia.
  - rewrite (proj2 (Z.ltb_ge _ _)), andb_false_r by lia.
    by rewrite (proj2 (Z.ltb_ge i 0)), andb_false_r by lia.
Qed.

(** [l[-1]] is the last element. *)
Lemma py_index_minus_one {A : Type} (l : list A) :
  py_index l (-1) = from_option Ok (Raise IndexError) (last l) ∧
  (l ≠ [] → py_norm (List.length l) (-1) = Some (pred (List.length l))).
Proof.
  destruct l as [|a l _] using rev_ind.
  - done.
  - assert (Hn : py_norm (List.length (l ++ [a])) (-1)
                 = Some (pred (List.length (l ++ [a])))).
    { unfold py_norm. rewrite length_app. simpl.
      rewrite (proj2 (Z.leb_le _ _)) by lia. simpl. f_equal. lia. }
    split; [|done]. unfold py_index. rewrite Hn, last_snoc, length_app. simpl.
    replace (pred (List.length l + 1)) with (List.length l) by lia.
    by rewrite list_lookup_middle.
Qed.

(** ** One track extension of the full-offset variant *)

Lemma torch_cat_length (ag : agent) (tr : list (option tref)) (ps : list point) :
  torch_cat ag tr = Ok ps → List.length ps = List.length tr.
Proof.
  revert ps. induction tr as [|[r|] tr IH]; intros ps H; simpl in H.
  - by injection H as <-.
  - inv_bind H. injection H as <-. simpl. f_equal. by apply IH.
  - done.
Qed.

(** [torch.cat] reads the goals and the position only. *)
Lemma torch_cat_ext (ag1 ag2 : agent) (tr : list (option tref)) :
  intermediate_goals ag1 = intermediate_goals ag2 →
  vehicle ag1 = vehicle ag2 →
  torch_cat ag1 tr = torch_cat ag2 tr.
Proof.
  intros Hg Hv. induction tr as [|[r|] tr IH]; simpl; [done| |done].
  rewrite IH. by destruct r; simpl; rewrite ?Hg, ?Hv.
Qed.

(** What a successful extension did. *)
Lemma step_extend_Ok (width length : Q) (ag : agent) (action : Z)
    (c : bool) (ag' : agent) :
  step_extend width length ag action = Ok (c, ag') →
  ∃ i g ac,
    py_norm (List.length (intermediate_goals ag)) (track_point ag - 1) = Some i ∧
    intermediate_goals ag !! i = Some g ∧
    py_index actions_list action = Ok ac ∧
    let pt := padd (goal_xy g) (scale_offset width ac) in
    intermediate_goals ag' = <[i := Goal pt (goal_rest g)]> (intermediate_goals ag) ∧
    track_point ag' = track_point ag ∧
    previous_start_point ag' = GoalView i ∧
    vehicle ag' = vehicle ag ∧
    road_name ag' = road_name ag ∧
    c = completes_now ag ∧
    if c then
      track ag' = track ag ++ [Some (GoalView i);
                               Fresh <$> get_dummy_point width length pt] ∧
      ∃ tr, torch_cat ag' (track ag') = Ok tr ∧
            dynamics ag' = register_track (dynamics ag) tr true
    else
      track ag' = track ag ++ [Some (GoalView i)] ∧
      dynamics ag' = dynamics ag.
Proof.
  unfold step_extend. intros H. inv_bind H.
  rename a into g, a0 into ac.
  apply py_index_Ok in E as (i & Hi & Hg).
  exists i, g, ac. rewrite Hi in H |- *. simpl in H.
  rewrite length_app, length_insert in H. simpl in H.
  unfold completes_now.
  destruct (List.length (track ag) + 1 =? _)%nat eqn:Hc.
  - inv_bind H. injection H as <- <-. simpl.
    rewrite <- (assoc_L (++)) in E |- *.
    repeat split; try done. exists a. split; [|done].
    rewrite <- E. by apply torch_cat_ext.
  - injection H as <- <-. by simpl.
Qed.

Lemma torch_cat_cases (ag : agent) (tr : list (option tref)) :
  (∃ ps, torch_cat ag tr = Ok ps) ∨ torch_cat ag tr = Raise TypeError.
Proof.
  induction tr as [|[r|] tr IH]; simpl; [by left; eauto| |by right].
  destruct IH as [[ps ->] | ->]; [left|right]; simpl; eauto.
Qed.

Lemma py_index_in_range {A : Type} (l : list A) (i : Z) :
  - Z.of_nat (List.length l) ≤ i < Z.of_nat (List.length l) →
  ∃ a, py_index l i = Ok a.
Proof.
  intros Hi. destruct (decide (0 ≤ i)) as [Hpos|Hneg].
  - destruct (py_index_nonneg l i) as (_ & a & _ & Ha); [lia|eauto].
  - rewrite py_index_negative by lia.
    destruct (py_index_nonneg l (Z.of_nat (List.length l) + i))
      as (_ & a & _ & Ha); [lia|eauto].
Qed.

(** An extension with a valid action, on a cursor within the goals, either
    succeeds or is the completing one and fails in [torch.cat] on a dummy
    point that is [None]. *)
Lemma step_extend_progress (width length : Q) (ag : agent) (action : Z) :
  (1 ≤ List.length (intermediate_goals ag))%nat →
  0 ≤ track_point ag ≤ Z.of_nat (List.length (intermediate_goals ag)) →
  0 ≤ action < Z.of_nat (List.length actions_list) →
  (∃ c ag', step_extend width length ag action = Ok (c, ag')) ∨
  (completes_now ag = true ∧
   step_extend width length ag action = Raise TypeError).
Proof.
  intros HL Htp Hac. unfold step_extend, completes_now.
  destruct (py_index_in_range (intermediate_goals ag) (track_point ag - 1))
    as [g ->]; [lia|].
  destruct (py_index_nonneg actions_list action) as (_ & ac & _ & ->); [done|].
  simpl. rewrite length_app, length_insert. simpl.
  destruct (_ =? _)%nat; [|by left; eauto].
  match goal with |- context [torch_cat ?a ?t] =>
    destruct (torch_cat_cases a t) as [[ps ->] | ->] end; simpl.
  - left. eauto.
  - by right.
Qed.

(** What an observation read that returned did: nothing but move the
    cursor, and that only while it is short of the end. *)
Lemma get_state_single_agent_inv (width length : Q) (ag : agent)
    (obs : option tensor) (ag' : agent) :
  get_state_single_agent width length ag = Ok (obs, ag') →
  ag' = set_track_point (track_point ag') ag ∧
  track_point ag' =
    (if Z.of_nat (List.length (intermediate_goals ag)) <=? track_point ag
     then track_point ag else track_point ag + 1).
Proof.
  unfold get_state_single_agent. intros H.
  destruct (_ <=? _) eqn:Hle.
  - injection H as <- <-. by destruct ag.
  - inv_bind H. destruct (Qeq_bool width 0); [done|].
    destruct (Qeq_bool length 0); [done|]. by injection H as <- <-.
Qed.

(** An observation read on a cursor that is not negative returns, or
    raises [ZeroDivisionError] because the width or the length is zero. *)
Lemma get_state_single_agent_cases (width length : Q) (ag : agent) :
  0 ≤ track_point ag →
  (∃ obs ag', get_state_single_agent width length ag = Ok (obs, ag')) ∨
  (get_state_single_agent width length ag = Raise ZeroDivisionError ∧
   ((width == 0)%Q ∨ (length == 0)%Q)).
Proof.
  intros Htp. unfold get_state_single_agent.
  destruct (_ <=? _) eqn:Hle; [left; eauto|].
  apply Z.leb_gt in Hle.
  destruct (py_index_nonneg (intermediate_goals ag) (track_point ag))
    as (_ & g & _ & ->); [lia|].
  simpl.
  destruct (Qeq_bool width 0) eqn:Hw.
  { right. split; [done|]. left. by apply Qeq_bool_iff. }
  destruct (Qeq_bool length 0) eqn:Hl.
  { right. split; [done|]. right. by apply Qeq_bool_iff. }
  left. eauto.
Qed.

(** ** Track length and registration over a sequence of calls *)








(** ** The cursor of a fresh agent *)

(** An extension with a valid action on a cursor within the goals: the
    goal it reads, and what it leaves when it returns. *)
Lemma step_extend_reads (width length : Q) (ag : agent) (action : Z) :
  (1 ≤ List.length (intermediate_goals ag))%nat →
  0 ≤ track_point ag ≤ Z.of_nat (List.length (intermediate_goals ag)) →
  0 ≤ action < Z.of_nat (List.length actions_list) →
  ∃ i g ac,
    py_norm (List.length (intermediate_goals ag)) (track_point ag - 1) = Some i ∧
    intermediate_goals ag !! i = Some g ∧
    actions_list !! Z.to_nat action = Some ac ∧
    match step_extend width length ag action with
    | Ok (c, ag') =>
        c = completes_now ag ∧
        track_point ag' = track_point ag ∧
        track ag' !! List.length (track ag) = Some (Some (GoalView i)) ∧
        deref ag' (GoalView i)
        = (((goal_xy g).1 + ac.1 * width / 2)%Q,
           ((goal_xy g).2 + ac.2 * width / 2)%Q)
    | Raise ex => ex = TypeError ∧ completes_now ag = true
    | OutOfFuel => False
    end.
Proof.
  intros HL Htp Hact.
  destruct (py_index_in_range (intermediate_goals ag) (track_point ag - 1))
    as [g Hg]; [lia|].
  apply py_index_Ok in Hg as (i & Hi & Hg).
  destruct (py_index_nonneg actions_list action Hact) as (_ & ac & Hac & Hidx).
  exists i, g, ac. split; [done|]. split; [done|]. split; [done|].
  destruct (step_extend_progress width length ag action HL Htp Hact)
    as [(c & ag' & Hok)|[Hnow ->]]; [|done].
  rewrite Hok.
  apply step_extend_Ok in Hok
    as (i' & g' & ac' & Hi' & Hg' & Hac' & Hgoals & Htp' & _ & _ & _ & -> & Hrest).
  rewrite Hi in Hi'. injection Hi' as <-.
  rewrite Hg in Hg'. injection Hg' as <-.
  rewrite Hidx in Hac'. injection Hac' as <-.
  split; [done|]. split; [done|]. split.
  - destruct (completes_now ag); destruct Hrest as [-> _];
      by rewrite list_lookup_middle.
  - simpl. rewrite Hgoals.
    by rewrite list_lookup_insert_eq by by eapply lookup_lt_Some.
Qed.

Section Cursor.
Context {B V : Type} `{!BaseEnv B V}.

(** What [add_vehicle] leaves in the record of the agent. *)
Lemma add_vehicle_Ok (e : env B V) (a_id : string) (args ret : V) (e' : env B V) :
  add_vehicle e a_id args = Ok (ret, e') →
  ∃ ag, agents e' !! a_id = Some ag ∧
        track_point ag = 0 ∧
        previous_start_point ag = PosView ∧
        track ag = [Fresh <$> get_dummy_point (width e') (length e')
                                (position (vehicle ag)); Some PosView].
Proof.
  unfold add_vehicle. destruct (super_add_vehicle e a_id args) as [r e1].
  intros H. inv_bind H. injection H as <- <-. simpl.
  eexists. rewrite lookup_insert_eq. by repeat split.
Qed.

(** C10: the agent [add_vehicle] creates has [track_point] 0, so the index
    [track_point - 1] of an extension is -1, the LAST intermediate goal.
    An extension with a valid action made before any observation read
    returns (unless it is the completing one, with a single goal, and a
    dummy point is [None]: then it raises [TypeError]), leaves
    [track_point] at 0, and the waypoint it appends, third in the track, is
    the last goal, offset by the catalog entry times width/2.  After one
    observation read (which returns unless the width or the length is zero)
    the cursor is 1 and the extension appends the first goal instead.
    Without goals the extension raises [IndexError]. *)
Theorem fresh_agent_extends_last_goal (e : env B V) (a_id : string)
    (args ret : V) (e' : env B V) :
  add_vehicle e a_id args = Ok (ret, e') →
  ∃ ag, agents e' !! a_id = Some ag ∧
    track_point ag = 0 ∧
    py_index (intermediate_goals ag) (track_point ag - 1)
      = from_option Ok (Raise IndexError) (last (intermediate_goals ag)) ∧
    (intermediate_goals ag = [] →
       ∀ action, step_extend (width e') (length e') ag action
                 = Raise IndexError) ∧
    (∀ action g,
       0 ≤ action < Z.of_nat (List.length actions_list) →
       last (intermediate_goals ag) = Some g →
       ∃ ac,
         actions_list !! Z.to_nat action = Some ac ∧
         match step_extend (width e') (length e') ag action with
         | Ok (c, ag') =>
             c = (List.length (intermediate_goals ag) =? 1)%nat ∧
             track_point ag' = 0 ∧
             track ag' !! 2%nat
             = Some (Some (GoalView (pred (List.length (intermediate_goals ag))))) ∧
             deref ag' (GoalView (pred (List.length (intermediate_goals ag))))
             = (((goal_xy g).1 + ac.1 * width e' / 2)%Q,
                ((goal_xy g).2 + ac.2 * width e' / 2)%Q)
         | Raise ex =>
             ex = TypeError ∧ List.length (intermediate_goals ag) = 1%nat
         | OutOfFuel => False
         end) ∧
    (¬ (width e' == 0)%Q → ¬ (length e' == 0)%Q →
       ∃ obs ag1, get_state_single_agent (width e') (length e') ag
                  = Ok (obs, ag1)) ∧
    (∀ obs ag1 action g,
       get_state_single_agent (width e') (length e') ag = Ok (obs, ag1) →
       0 ≤ action < Z.of_nat (List.length actions_list) →
       head (intermediate_goals ag) = Some g →
       track_point ag1 = 1 ∧
       ∃ ac,
         actions_list !! Z.to_nat action = Some ac ∧
         match step_extend (width e') (length e') ag1 action with
         | Ok (c, ag') =>
             c = (List.length (intermediate_goals ag) =? 1)%nat ∧
             track_point ag' = 1 ∧
             track ag' !! 2%nat = Some (Some (GoalView 0)) ∧
             deref ag' (GoalView 0)
             = (((goal_xy g).1 + ac.1 * width e' / 2)%Q,
                ((goal_xy g).2 + ac.2 * width e' / 2)%Q)
         | Raise ex =>
             ex = TypeError ∧ List.length (intermediate_goals ag) = 1%nat
         | OutOfFuel => False
         end).
Proof.
  intros Hadd. apply add_vehicle_Ok in Hadd as (ag & Hag & Htp & Hprev & Htr).
  exists ag. split; [done|]. split; [done|].
  assert (Hnow : ∀ ag1, track ag1 = track ag →
            intermediate_goals ag1 = intermediate_goals ag →
            completes_now ag1
            = (List.length (intermediate_goals ag) =? 1)%nat).
  { intros ag1 Ht Hg. unfold completes_now. rewrite Ht, Hg, Htr.
    cbn [List.length].
    destruct (Nat.eqb_spec (2 + 1) (List.length (intermediate_goals ag) + 2)),
      (Nat.eqb_spec (List.length (intermediate_goals ag)) 1); (done || lia). }
  split; [rewrite Htp; apply py_index_minus_one|].
  split.
  { intros Hnil action. unfold step_extend. by rewrite Hnil, Htp. }
  split.
  { intros action g Hact Hlast.
    assert (Hne : intermediate_goals ag ≠ []).
    { intros Hnil. by rewrite Hnil in Hlast. }
    assert (HL : (1 ≤ List.length (intermediate_goals ag))%nat).
    { destruct (intermediate_goals ag); [done|simpl; lia]. }
    destruct (step_extend_reads (width e') (length e') ag action)
      as (i & g' & ac & Hi & Hg & Hac & Hres); [done|lia|done|].
    rewrite Htp in Hi. change (0 - 1) with (-1) in Hi.
    rewrite (proj2 (py_index_minus_one _) Hne) in Hi. injection Hi as <-.
    rewrite last_lookup, Hg in Hlast. injection Hlast as ->.
    exists ac. split; [done|].
    destruct (step_extend (width e') (length e') ag action)
      as [[c ag']|ex|]; [| |done].
    - destruct Hres as (-> & Htp' & Hlook & Hder).
      rewrite Htr in Hlook. simpl in Hlook.
      split; [by apply Hnow|]. split; [lia|]. by split.
    - destruct Hres as [-> Hc]. split; [done|].
      rewrite (Hnow ag) in Hc by done. by apply Nat.eqb_eq in Hc. }
  split.
  { intros Hw Hl.
    destruct (get_state_single_agent_cases (width e') (length e') ag)
      as [?|[_ [?|?]]]; [lia|done..]. }
  intros obs ag1 action g Hobs Hact Hhead.
  apply get_state_single_agent_inv in Hobs as [Hag1 Htp1].
  destruct (intermediate_goals ag) as [|g0 gs] eqn:Hgs; [done|].
  simpl in Hhead. injection Hhead as ->.
  rewrite Htp in Htp1.
  change (Z.of_nat (List.length (g :: gs)) <=? 0) with false in Htp1.
  change (0 + 1) with 1 in Htp1. cbn iota in Htp1.
  split; [done|].
  assert (Hg1 : intermediate_goals ag1 = g :: gs) by by rewrite Hag1.
  assert (Ht1 : track ag1 = track ag) by by rewrite Hag1.
  destruct (step_extend_reads (width e') (length e') ag1 action)
    as (i & g' & ac & Hi & Hg & Hac & Hres).
  { rewrite Hg1. simpl. lia. }
  { rewrite Hg1, Htp1. simpl. lia. }
  { done. }
  rewrite Htp1, Hg1 in Hi. unfold py_norm in Hi. simpl in Hi.
  injection Hi as <-. rewrite Hg1 in Hg. simpl in Hg. injection Hg as <-.
  exists ac. split; [done|].
  destruct (step_extend (width e') (length e') ag1 action)
    as [[c ag']|ex|]; [| |done].
  - destruct Hres as (-> & Htp' & Hlook & Hder).
    rewrite Ht1, Htr in Hlook. simpl in Hlook.
    split; [by rewrite (Hnow ag1)|]. split; [lia|]. by split.
  - destruct Hres as [-> Hc]. split; [done|].
    rewrite (Hnow ag1) in Hc by done. by apply Nat.eqb_eq in Hc.
Qed.

End Cursor.

(** [add_vehicle] on the toy environment creates [demo_agent]; an extension
    with action 0 before any observation read returns, and the waypoint it
    appends is a view of goal 1, the last one, supplied as (3, 0) and now
    (3 - 0.75, 0 - 0.75). *)
Lemma fresh_agent_extends_last_goal_witness :
  add_vehicle demo_env "a" demo_args = Ok ([], demo_env_a) ∧
  ∃ ag',
    step_extend 2 10 demo_agent 0 = Ok (false, ag') ∧
    track_point ag' = 0 ∧
    track ag' !! 2%nat = Some (Some (GoalView 1)) ∧
    Qeqp (deref ag' (GoalView 1)) (2.25, -0.75)%Q.
Proof.
  assert (Hadd : add_vehicle demo_env "a" demo_args = Ok ([], demo_env_a))
    by by vm_compute.
  split; [exact Hadd|].
  destruct (fresh_agent_extends_last_goal demo_env "a" demo_args [] demo_env_a
              Hadd) as (ag & Hag & _ & _ & _ & Hext & _).
  assert (Heq : ag = demo_agent).
  { change (agents demo_env_a !! "a") with (Some demo_agent) in Hag.
    by injection Hag. }
  subst ag.
  destruct (Hext 0 (Goal (3, 0)%Q [])) as (ac & Hac & Hres);
    [by vm_compute|done|].
  eassert (Hrun : step_extend 2 10 demo_agent 0 = Ok (false, _))
    by by vm_compute.
  change (width demo_env_a) with 2%Q in Hres.
  change (length demo_env_a) with 10%Q in Hres.
  rewrite Hrun in Hres. destruct Hres as (_ & Htp & Hlook & Hder).
  eexists. split; [exact Hrun|]. split; [exact Htp|]. split; [exact Hlook|].
  by vm_compute.
Defined.

(** ** Which operations write into the intermediate goals *)

(** C4 fails on the full-offset [step]: [pt] is a view of the goal and
    [pt += deviation] writes through it.  On [demo_env_a], with action 0
    (the offset (-0.75, -0.75), times width/2 = 1), the goal read at
    [track_point - 1], supplied as (3, 0), holds (2.25, -0.75) when the
    call returns. *)
Theorem step_writes_into_goal :
  (goal_xy <$> intermediate_goals demo_agent) = [(0, 3); (3, 0)]%Q ∧
  ∃ res e' ag',
    step 0 demo_env_a [("a", 0)] = Ok (res, e') ∧
    agents e' !! "a" = Some ag' ∧
    Forall2 Qeqp (goal_xy <$> intermediate_goals ag')
                 [(0, 3); (2.25, -0.75)]%Q.
Proof.
  split; [done|]. do 3 eexists. split; [by vm_compute|].
  split; [by vm_compute|].
  repeat (constructor; [by vm_compute|]). constructor.
Qed.

(** The left/right [step] works on a clone and leaves the goals as they
    were. *)
Lemma lr_step_extend_goals (width length : Q) (ag : agent) (action : Z)
    (ag' : agent) :
  lr_step_extend width length ag action = Ok ag' →
  intermediate_goals ag' = intermediate_goals ag ∧
  track_point ag' = track_point ag.
Proof.
  unfold lr_step_extend. intros H. inv_bind H. by injection H as <-.
Qed.

(** So does an observation read. *)
Lemma get_state_single_agent_goals (width length : Q) (ag : agent)
    (obs : option tensor) (ag' : agent) :
  get_state_single_agent width length ag = Ok (obs, ag') →
  intermediate_goals ag' = intermediate_goals ag.
Proof.
  intros H. apply get_state_single_agent_inv in H as [H _]. by rewrite H.
Qed.

Section Transform.
Context {B V : Type} `{!BaseEnv B V}.

(** And so does [transform_state_action_single_agent], which leaves every
    agent record as it was. *)
Lemma transform_state_action_single_agent_agents (e : env B V) (a_id : string)
    (action : Z) (state : V) (timesteps : Z) r (e' : env B V) :
  transform_state_action_single_agent e a_id action state timesteps = Ok (r, e') →
  agents e' = agents e.
Proof.
  unfold transform_state_action_single_agent. intros H. inv_bind H.
  destruct (position (vehicle a)). inv_bind H. by injection H as <- <-.
Qed.

(** ** The nominal trajectory *)

Lemma nominal_loop_spec (n : nat) (d : dynamics_model) (action : Q) :
  ∀ (states actions : list tensor) (s : tensor),
  last states = Some s →
  nominal_loop n d action states actions =
    (states ++ ((λ k, Nat.iter (S k) (λ st, dynamics_call d st action) s)
                <$> seq 0 n),
     actions ++ replicate n [action]).
Proof.
  induction n as [|n IH]; intros states actions s Hlast; simpl.
  - by rewrite !app_nil_r.
  - rewrite Hlast. simpl.
    rewrite (IH _ _ (dynamics_call d s action)) by apply last_snoc.
    rewrite <- !(assoc_L (++)). simpl. f_equal. f_equal. f_equal.
    rewrite <- fmap_S_seq, <- list_fmap_compose.
    apply list_fmap_ext. intros _ k _. simpl.
    f_equal. apply (Nat.iter_swap k _ (λ st, dynamics_call d st action)).
Qed.

(** C8: for an agent of the table, a valid index into the acceleration
    catalog and a positive horizon, [transform_state_action_single_agent]
    returns two zero 4-vectors and the pair (nominal_states,
    nominal_actions): [timesteps + 1] states, the k-th being the dynamics
    model applied k times with the selected action to
    [x, y, speed, orientation], and [timesteps + 1] copies of the action,
    which is the catalog entry [-1.5 + 0.25 * action].  When it returns,
    [curr_actions[a_id]] holds the selected action; the entries of the
    other agents, the agent table and the rest of the environment are as
    they were. *)
Theorem transform_state_action_single_agent_spec (e : env B V) (a_id : string)
    (ag : agent) (action : Z) (state : V) (timesteps : Z) :
  agents e !! a_id = Some ag →
  0 ≤ action < Z.of_nat (List.length accln_control_actions_list) →
  0 < timesteps →
  ∃ ac e',
    accln_control_actions_list !! Z.to_nat action = Some ac ∧
    ac = (-1.5 + inject_Z action * 0.25)%Q ∧
    transform_state_action_single_agent e a_id action state timesteps =
      Ok (([0; 0; 0; 0]%Q, [0; 0; 0; 0]%Q,
           ((λ k, Nat.iter k (λ st, dynamics_call (dynamics ag) st ac)
                    [(position (vehicle ag)).1; (position (vehicle ag)).2;
                     speed (vehicle ag); orientation (vehicle ag)])
              <$> seq 0 (S (Z.to_nat timesteps)),
            replicate (S (Z.to_nat timesteps)) [ac])),
          e') ∧
    curr_actions e' !! a_id = Some [ac] ∧
    (∀ k, k ≠ a_id → curr_actions e' !! k = curr_actions e !! k) ∧
    agents e' = agents e ∧
    prev_state e' = prev_state e ∧
    width e' = width e ∧
    length e' = length e ∧
    base e' = base e.
Proof.
  intros Hag Hac _.
  destruct (py_index_nonneg accln_control_actions_list action Hac)
    as (_ & ac & Hlook & Hidx).
  exists ac, (Env (agents e) (<[a_id := [ac]]> (curr_actions e))
                  (prev_state e) (width e) (length e) (base e)).
  split; [done|]. split.
  { unfold accln_control_actions_list, arange in Hlook.
    rewrite list_lookup_fmap in Hlook.
    destruct (seq 0 _ !! Z.to_nat action) as [k|] eqn:Hk; [|done].
    apply lookup_seq in Hk as [-> _]. simpl in Hlook.
    injection Hlook as <-. by rewrite Z2Nat.id by lia. }
  split.
  { unfold transform_state_action_single_agent, getitem. rewrite Hag. simpl.
    destruct (position (vehicle ag)) as [x y]. rewrite Hidx. simpl.
    rewrite (nominal_loop_spec _ _ _ _ _ [x; y; speed (vehicle ag);
                                          orientation (vehicle ag)]) by done.
    simpl. by rewrite <- fmap_S_seq, <- list_fmap_compose. }
  simpl. split; [by rewrite lookup_insert_eq|].
  split; [|done]. intros k Hk. by rewrite lookup_insert_ne.
Qed.

End Transform.

(** On the toy environment no action is stored for agent a before the
    call; for index 8 over two ticks the call returns three states and
    three copies of the action 0.5, and [curr_actions] then holds 0.5 for
    agent a. *)
Lemma transform_state_action_single_agent_spec_witness :
  curr_actions demo_env_a !! "a" = None ∧
  ∃ ac states e',
    (ac == 0.5)%Q ∧
    transform_state_action_single_agent demo_env_a "a" 8 [] 2 =
      Ok (([0; 0; 0; 0]%Q, [0; 0; 0; 0]%Q, (states, [[ac]; [ac]; [ac]])), e') ∧
    List.length states = 3%nat ∧
    curr_actions e' !! "a" = Some [ac] ∧
    agents e' = agents demo_env_a.
Proof.
  split; [done|].
  destruct (transform_state_action_single_agent_spec demo_env_a "a" demo_agent
              8 [] 2) as (ac & e' & _ & Hval & Hrun & Hca & _ & Hags & _).
  - by vm_compute.
  - by vm_compute.
  - lia.
  - exists ac. eexists. exists e'.
    split; [by rewrite Hval|]. split; [exact Hrun|].
    split; [done|]. by split.
Defined.

(** ** Action indices outside the catalog *)

Lemma py_index_cases {A : Type} (l : list A) (i : Z) :
  (∃ a, py_index l i = Ok a) ∨ py_index l i = Raise IndexError.
Proof.
  unfold py_index. destruct (py_norm _ i) as [k|]; [|by right].
  destruct (l !! k); [left|right]; eauto.
Qed.

Lemma step_extend_bad_action (width length : Q) (ag : agent) (action : Z) :
  action < - Z.of_nat (List.length actions_list)
  ∨ Z.of_nat (List.length actions_list) ≤ action →
  step_extend width length ag action = Raise IndexError.
Proof.
  intros Hbad. unfold step_extend.
  destruct (py_index_cases (intermediate_goals ag) (track_point ag - 1))
    as [[g ->] | ->]; [|done].
  simpl. by rewrite py_index_out_of_range.
Qed.

Lemma step_extend_cases (width length : Q) (ag : agent) (action : Z) :
  (∃ r, step_extend width length ag action = Ok r) ∨
  (∃ ex, step_extend width length ag action = Raise ex).
Proof.
  unfold step_extend.
  destruct (py_index_cases (intermediate_goals ag) (track_point ag - 1))
    as [[g ->] | ->]; [|right; eauto]. simpl.
  destruct (py_index_cases actions_list action) as [[ac ->] | ->];
    [|right; eauto]. simpl.
  destruct (_ =? _)%nat; [|left; eauto].
  match goal with |- context [torch_cat ?a ?t] =>
    destruct (torch_cat_cases a t) as [[ps ->] | ->] end; simpl;
    [left|right]; eauto.
Qed.

Section BadIndex.
Context {B V : Type} `{!BaseEnv B V}.

Lemma step_track_loop_bad_action (a_id : string) (action : Z)
    (actions : list (string * Z)) :
  action < - Z.of_nat (List.length actions_list)
  ∨ Z.of_nat (List.length actions_list) ≤ action →
  (a_id, action) ∈ actions →
  ∀ (e : env B V) (c0 : bool),
  is_Some (agents e !! a_id) →
  ∃ ex, step_track_loop e actions c0 = Raise ex.
Proof.
  intros Hbad. induction actions as [|[k act] actions IH]; intros Hin e c0 Hag.
  - by apply elem_of_nil in Hin.
  - simpl. unfold getitem. destruct (agents e !! k) as [ag|] eqn:Hk;
      [|by eexists]. simpl.
    destruct (step_extend_cases (width e) (length e) ag act)
      as [[[c ag'] Hok]|[ex Hex]]; [|rewrite Hex; by eexists].
    rewrite Hok. simpl.
    apply elem_of_cons in Hin as [[= <- <-]|Hin].
    + by rewrite step_extend_bad_action in Hok.
    + apply IH; [done|]. simpl.
      destruct (decide (k = a_id)) as [->|Hne].
      * by rewrite lookup_insert_eq.
      * by rewrite lookup_insert_ne.
Qed.

(** C9, as the code has it: an index below [-N] or from [N] on, [N] the
    size of the catalog indexed, raises [IndexError] in the track extension
    and in [transform_state_action_single_agent], and a [step] given it for
    an agent of the table raises; an index in [[0, N)] finds its catalog
    entry and never raises that error; an index in [[-N, 0)] does not raise
    either: as Python lists do, the catalog reads it from its end. *)
Theorem action_index_range (e : env B V) (a_id : string) (ag : agent)
    (action : Z) (state : V) (timesteps : Z) :
  agents e !! a_id = Some ag →
  (action < - Z.of_nat (List.length actions_list)
   ∨ Z.of_nat (List.length actions_list) ≤ action →
     step_extend (width e) (length e) ag action = Raise IndexError ∧
     ∀ fuel actions, (a_id, action) ∈ actions →
       ∃ ex, step fuel e actions = Raise ex) ∧
  (action < - Z.of_nat (List.length accln_control_actions_list)
   ∨ Z.of_nat (List.length accln_control_actions_list) ≤ action →
     transform_state_action_single_agent e a_id action state timesteps
     = Raise IndexError) ∧
  (0 ≤ action < Z.of_nat (List.length actions_list) →
     (∃ ac, actions_list !! Z.to_nat action = Some ac ∧
            py_index actions_list action = Ok ac) ∧
     ((1 ≤ List.length (intermediate_goals ag))%nat →
      0 ≤ track_point ag ≤ Z.of_nat (List.length (intermediate_goals ag)) →
      step_extend (width e) (length e) ag action ≠ Raise IndexError)) ∧
  (0 ≤ action < Z.of_nat (List.length accln_control_actions_list) →
     ∃ r, transform_state_action_single_agent e a_id action state timesteps
          = Ok r) ∧
  (- Z.of_nat (List.length actions_list) ≤ action < 0 →
     py_index actions_list action
     = py_index actions_list (Z.of_nat (List.length actions_list) + action)) ∧
  (- Z.of_nat (List.length accln_control_actions_list) ≤ action < 0 →
     transform_state_action_single_agent e a_id action state timesteps
     = transform_state_action_single_agent e a_id
         (Z.of_nat (List.length accln_control_actions_list) + action)
         state timesteps).
Proof.
  intros Hag. repeat split.
  - by apply step_extend_bad_action.
  - intros fuel actions Hin. unfold step.
    destruct (step_track_loop_bad_action a_id action actions H Hin e false)
      as [ex ->]; [by rewrite Hag|]. by eexists.
  - intros Hbad. unfold transform_state_action_single_agent, getitem.
    rewrite Hag. simpl. destruct (position (vehicle ag)).
    by rewrite py_index_out_of_range.
  - destruct (py_index_nonneg actions_list action) as (_ & ac & ? & ?); eauto.
  - intros HL Htp Herr.
    destruct (step_extend_progress (width e) (length e) ag action HL Htp H)
      as [(c & ag' & Hok)|[_ Hty]]; congruence.
  - intros Hok. unfold transform_state_action_single_agent, getitem.
    rewrite Hag. simpl. destruct (position (vehicle ag)).
    destruct (py_index_nonneg accln_control_actions_list action Hok)
      as (_ & ac & _ & ->). simpl. eauto.
  - apply py_index_negative.
  - intros Hneg. unfold transform_state_action_single_agent, getitem.
    rewrite Hag. simpl. destruct (position (vehicle ag)).
    by rewrite py_index_negative.
Qed.

End BadIndex.

(** Index 49 is one past the full-offset catalog. *)
Lemma action_index_range_witness :
  step_extend (width demo_env_a) (length demo_env_a) demo_agent 49
  = Raise IndexError.
Proof.
  refine (proj1 (proj1 (action_index_range demo_env_a "a" demo_agent 49 [] 2
                          _) _)).
  - by vm_compute.
  - right. by vm_compute.
Defined.

(** C9, as stated, fails below 0: the index -1 lies outside [[0, N)], yet
    both operations accept it and use the last entry of their catalog. *)
Lemma negative_index_accepted :
  ¬ (0 ≤ -1 < Z.of_nat (List.length accln_control_actions_list)) ∧
  ¬ (0 ≤ -1 < Z.of_nat (List.length actions_list)) ∧
  (∃ r, transform_state_action_single_agent demo_env_a "a" (-1) [] 2 = Ok r) ∧
  (∃ r, step_extend 2 10 demo_agent (-1) = Ok r).
Proof.
  split; [lia|]. split; [lia|]. split; eexists; by vm_compute.
Qed.

(** ** The inner rollout *)

Lemma add_reward_Ok (rewards : gmap string Q) (k : string) (r old : Q) :
  rewards !! k = Some old →
  add_reward rewards (k, r) = Ok (<[k := (old + r)%Q]> rewards).
Proof. intros Hk. unfold add_reward, getitem. simpl. by rewrite Hk. Qed.

(** Adding the items of one dict: every key met gets its reward added once,
    the other entries stay. *)
Lemma accumulate_items (items : list (string * Q)) :
  NoDup items.*1 →
  ∀ rewards : gmap string Q,
  (∀ k, k ∈ items.*1 → is_Some (rewards !! k)) →
  ∃ rewards',
    accumulate rewards items = Ok rewards' ∧
    ∀ a, rewards' !! a =
         (λ q, from_option (Qplus q) q
                 ((list_to_map items : gmap string Q) !! a)) <$> rewards !! a.
Proof.
  induction items as [|[k r] items IH]; intros Hnd rewards Hkeys; simpl.
  - exists rewards. split; [done|]. intros a. rewrite lookup_empty. simpl.
    by destruct (rewards !! a).
  - apply NoDup_cons in Hnd as [Hk Hnd].
    destruct (Hkeys k) as [old Hold]; [by left|].
    rewrite (add_reward_Ok _ _ _ _ Hold). simpl.
    destruct (IH Hnd (<[k := (old + r)%Q]> rewards)) as (rewards' & -> & Hl).
    { intros k' Hk'. destruct (decide (k = k')) as [->|Hne].
      - by rewrite lookup_insert_eq.
      - rewrite lookup_insert_ne by done. apply Hkeys. by right. }
    exists rewards'. split; [done|]. intros a. rewrite Hl.
    destruct (decide (k = a)) as [->|Hne].
    + rewrite !lookup_insert_eq, Hold. simpl.
      by rewrite (not_elem_of_list_to_map_1 _ _ Hk).
    + by rewrite !lookup_insert_ne.
Qed.

Lemma accumulate_dict (rewards rew : gmap string Q) :
  (∀ k, is_Some (rew !! k) → is_Some (rewards !! k)) →
  ∃ rewards',
    accumulate rewards (map_to_list rew) = Ok rewards' ∧
    ∀ a, rewards' !! a =
         (λ q, from_option (Qplus q) q (rew !! a)) <$> rewards !! a.
Proof.
  intros Hkeys.
  destruct (accumulate_items (map_to_list rew) (NoDup_fst_map_to_list rew)
              rewards) as (rewards' & Hacc & Hl).
  { intros k Hk. apply Hkeys.
    apply list_elem_of_fmap in Hk as ([k' r] & -> & Hin).
    apply elem_of_map_to_list in Hin. simpl. by rewrite Hin. }
  exists rewards'. split; [done|]. intros a.
  by rewrite Hl, list_to_map_to_list.
Qed.

Section Rollout.
Context {B V : Type} `{!BaseEnv B V}.

(** When the base environment reports [done] within the fuel and rewards
    known agents only, the loop returns, and every entry of [rewards] has
    grown by the rewards of its key, tick after tick. *)
Lemma rollout_sums (fuel : nat) :
  ∀ (e : env B V) (rewards : gmap string Q) (rews : list (gmap string Q)),
  ticks fuel e = Some rews →
  Forall (λ rew : gmap string Q,
            ∀ k, is_Some (rew !! k) → is_Some (rewards !! k)) rews →
  ∃ rw e',
    rollout fuel e rewards = Ok (rw, e') ∧
    ∀ a, rw !! a =
         (λ q, fold_left Qplus (omap (λ rew : gmap string Q, rew !! a) rews) q)
           <$> rewards !! a.
Proof.
  induction fuel as [|fuel IH]; intros e rewards rews Hticks Hkeys; [done|].
  simpl in Hticks |- *.
  destruct (tick e) as [[rew done] e1].
  destruct done.
  - injection Hticks as <-. apply Forall_cons in Hkeys as [Hrew _].
    destruct (accumulate_dict rewards rew Hrew) as (rewards' & -> & Hl).
    simpl. exists rewards', e1. split; [done|]. intros a. rewrite Hl.
    destruct (rewards !! a); [|done]. simpl. by destruct (rew !! a).
  - destruct (ticks fuel e1) as [rews'|] eqn:Hrest; [|done].
    injection Hticks as <-. apply Forall_cons in Hkeys as [Hrew Hkeys].
    destruct (accumulate_dict rewards rew Hrew) as (rewards' & -> & Hl).
    simpl.
    destruct (IH e1 rewards' rews' Hrest) as (rw & e' & -> & Hrw).
    { eapply Forall_impl; [exact Hkeys|]. simpl. intros rew' Hk k Hsome.
      rewrite Hl. apply fmap_is_Some. by apply Hk. }
    exists rw, e'. split; [done|]. intros a. rewrite Hrw, Hl.
    destruct (rewards !! a); [|done]. simpl. by destruct (rew !! a).
Qed.

Lemma init_rewards_lookup (e : env B V) (a : string) :
  init_rewards e !! a
  = if decide (a ∈ get_agent_ids_list e) then Some 0%Q else None.
Proof.
  unfold init_rewards. induction (get_agent_ids_list e) as [|x ids IH].
  - rewrite fmap_nil, list_to_map_nil, lookup_empty.
    case_decide as Hin; [|done]. by apply elem_of_nil in Hin.
  - rewrite fmap_cons, list_to_map_cons.
    destruct (decide (x = a)) as [->|Hne].
    + rewrite lookup_insert_eq.
      destruct (decide (a ∈ a :: ids)) as [_|Hn]; [done|].
      destruct Hn. by left.
    + rewrite lookup_insert_ne, IH by done.
      destruct (decide (a ∈ ids)) as [Hin|Hn],
               (decide (a ∈ x :: ids)) as [Hin'|Hn']; try done.
      * destruct Hn'. by right.
      * apply elem_of_cons in Hin' as [->|?]; done.
Qed.

(** The loop started on [init_rewards]: it returns, and the result maps
    every id of [get_agent_ids_list] to its sum and holds no other key. *)
Lemma step_rewards_are_sums_aux (fuel : nat) (e1 : env B V)
    (rews : list (gmap string Q)) :
  ticks fuel e1 = Some rews →
  Forall (λ rew : gmap string Q,
            ∀ k, is_Some (rew !! k) → k ∈ get_agent_ids_list e1) rews →
  ∃ rw e2,
    rollout fuel e1 (init_rewards e1) = Ok (rw, e2) ∧
    (∀ a, a ∈ get_agent_ids_list e1 →
       rw !! a = Some (fold_left Qplus
                         (omap (λ rew : gmap string Q, rew !! a) rews) 0%Q)) ∧
    (∀ a, a ∉ get_agent_ids_list e1 → rw !! a = None).
Proof.
  intros Hticks Hkeys.
  destruct (rollout_sums fuel e1 (init_rewards e1) rews Hticks)
    as (rw & e2 & Hroll & Hrw).
  { eapply Forall_impl; [exact Hkeys|]. simpl. intros rew Hk k Hsome.
    rewrite init_rewards_lookup. by rewrite decide_True by by apply Hk. }
  exists rw, e2. split; [done|]. split.
  - intros a Ha. by rewrite Hrw, init_rewards_lookup, decide_True.
  - intros a Ha. by rewrite Hrw, init_rewards_lookup, decide_False.
Qed.

(** C5: when the inner loop of an outer [step] runs to completion (the
    base environment reports [done] within the fuel and rewards only ids of
    [get_agent_ids_list]), the call returns [(None, rewards, True, {})], in
    either variant, and [rewards] maps every id of the list to the sum,
    from 0.0 and in tick order, of the rewards the base [step] returned
    for that id, and holds no other key. *)
Theorem step_rewards_are_sums (fuel : nat) (e e1 : env B V)
    (actions : list (string * Z)) (rews : list (gmap string Q)) :
  ticks fuel e1 = Some rews →
  Forall (λ rew : gmap string Q,
            ∀ k, is_Some (rew !! k) → k ∈ get_agent_ids_list e1) rews →
  ∃ rw e2,
    rollout fuel e1 (init_rewards e1) = Ok (rw, e2) ∧
    (step_track_loop e actions false = Ok (true, e1) →
       step fuel e actions = Ok (StepResult None (RMap rw) true ∅, e2)) ∧
    (lr_step_track_loop e actions = Ok e1 →
       lr_step fuel e actions = Ok (StepResult None (RMap rw) true ∅, e2)) ∧
    (∀ a, a ∈ get_agent_ids_list e1 →
       rw !! a = Some (fold_left Qplus
                         (omap (λ rew : gmap string Q, rew !! a) rews) 0%Q)) ∧
    (∀ a, a ∉ get_agent_ids_list e1 → rw !! a = None).
Proof.
  intros Hticks Hkeys.
  destruct (step_rewards_are_sums_aux fuel e1 rews Hticks Hkeys)
    as (rw & e2 & Hroll & Hin & Hout).
  exists rw, e2. split; [done|]. repeat split; [| |done..].
  - intros Hloop. unfold step. rewrite Hloop. simpl. by rewrite Hroll.
  - intros Hloop. unfold lr_step. rewrite Hloop. simpl. by rewrite Hroll.
Qed.

End Rollout.

(** Two ticks of the toy environment: the agent holds 0 + 1 + 1. *)
Lemma step_rewards_are_sums_witness :
  ∃ rw e2,
    rollout 2 demo_env_a (init_rewards demo_env_a) = Ok (rw, e2) ∧
    rw !! "a" = Some (0 + 1 + 1)%Q.
Proof.
  assert (Hticks : ticks 2 demo_env_a
                   = Some [{["a" := 1%Q]}; {["a" := 1%Q]}]) by by vm_compute.
  assert (Hkeys : Forall (λ rew : gmap string Q,
                            ∀ k, is_Some (rew !! k)
                                 → k ∈ get_agent_ids_list demo_env_a)
                         [{["a" := 1%Q]}; {["a" := 1%Q]}]).
  { assert (Hone : ∀ k, is_Some (({["a" := 1%Q]} : gmap string Q) !! k)
                        → k ∈ get_agent_ids_list demo_env_a).
    { intros k Hk. destruct (decide (k = "a")) as [->|Hne].
      - by vm_compute; left.
      - rewrite lookup_singleton_ne in Hk by done. by destruct Hk. }
    repeat (apply Forall_cons_2; [exact Hone|]). apply Forall_nil_2. }
  destruct (step_rewards_are_sums 2 demo_env_a demo_env_a [] _ Hticks Hkeys)
    as (rw & e2 & Hroll & _ & _ & Hsum & _).
  exists rw, e2. split; [done|].
  apply (Hsum "a"). by vm_compute; left.
Defined.

(** ** When the outer step starts the rollout *)

Lemma getitem_Ok {A : Type} (d : gmap string A) (k : string) (v : A) :
  getitem d k = Ok v ↔ d !! k = Some v.
Proof. unfold getitem. destruct (d !! k); split; congruence. Qed.

Section OuterStep.
Context {B V : Type} `{!BaseEnv B V}.

(** The flag [completed] after the loop: it was set already, or one of the
    agents given an action was one waypoint short of a full track. *)
Lemma step_track_loop_flag (actions : list (string * Z)) :
  NoDup actions.*1 →
  ∀ (e : env B V) (c0 c : bool) (e1 : env B V),
  step_track_loop e actions c0 = Ok (c, e1) →
  (c = true ↔
   c0 = true ∨
   ∃ a_id action ag, (a_id, action) ∈ actions ∧ agents e !! a_id = Some ag ∧
                     completes_now ag = true).
Proof.
  induction actions as [|[k act] actions IH]; intros Hnd e c0 c e1 H.
  - simpl in H. injection H as <- <-. split; [by left|].
    intros [?|(? & ? & ? & Hin & _)]; [done|]. by apply elem_of_nil in Hin.
  - simpl in H. inv_bind H. destruct a0 as [c' ag'].
    apply getitem_Ok in E.
    apply step_extend_Ok in E0
      as (_ & _ & _ & _ & _ & _ & _ & _ & _ & _ & _ & Hc' & _).
    simpl in Hnd. apply NoDup_cons in Hnd as [Hk Hnd].
    apply (IH Hnd) in H. rewrite H. simpl. split.
    + intros [Hor|(a_id & action & ag & Hin & Hag & Hnow)].
      * apply orb_true_iff in Hor as [->| ->]; [|by left].
        right. exists k, act, a. rewrite <- Hc'. split; [by left|done].
      * right. exists a_id, action, ag. split; [by right|]. split; [|done].
        rewrite lookup_insert_ne in Hag; [done|]. intros ->. apply Hk.
        apply list_elem_of_fmap. by exists (a_id, action).
    + intros [->|(a_id & action & ag & Hin & Hag & Hnow)].
      * left. apply orb_true_r.
      * apply elem_of_cons in Hin as [Heq|Hin].
        -- injection Heq as -> ->.
           left. rewrite Hag in E. injection E as <-.
           by rewrite Hc', Hnow.
        -- right. exists a_id, action, ag. split; [done|]. split; [|done].
           rewrite lookup_insert_ne; [done|]. intros ->. apply Hk.
           apply list_elem_of_fmap. by exists (a_id, action).
Qed.

(** C1, as the code has it: a call in which no agent's track becomes
    complete returns [(self.get_state(), 0.0, False, {})] and starts no
    rollout, whatever the fuel and however many tracks were complete
    before; a call in which the track of at least one agent becomes
    complete goes into the rollout, whether or not the other tracks are
    complete.  With one action per agent, the second case is the one where
    some agent given an action is one waypoint short of
    [len(intermediate_goals) + 2]. *)
Theorem step_no_op_unless_completion (fuel : nat) (e : env B V)
    (actions : list (string * Z)) (c : bool) (e1 : env B V) :
  step_track_loop e actions false = Ok (c, e1) →
  (c = false →
     step fuel e actions
     = Ok (StepResult (Some (get_state e1).1) (RScalar 0.0) false ∅,
           (get_state e1).2)) ∧
  (c = true →
     step fuel e actions
     = '(rewards, e2) ← rollout fuel e1 (init_rewards e1);
       Ok (StepResult None (RMap rewards) true ∅, e2)) ∧
  (NoDup actions.*1 →
     (c = true ↔
      ∃ a_id action ag, (a_id, action) ∈ actions ∧ agents e !! a_id = Some ag ∧
                        completes_now ag = true)).
Proof.
  intros Hloop. repeat split.
  - intros ->. unfold step. rewrite Hloop. simpl. by destruct (get_state e1).
  - intros ->. unfold step. by rewrite Hloop.
  - intros Hc. apply (step_track_loop_flag _ H) in Hloop.
    apply Hloop in Hc as [?|?]; done.
  - intros Hex. apply (step_track_loop_flag _ H) in Hloop.
    apply Hloop. by right.
Qed.

End OuterStep.

(** One action for "b", which has two goals: no track completes. *)
Lemma step_no_op_unless_completion_witness :
  ∃ obs e2,
    step 0 demo_env_ab [("b", 12)]
    = Ok (StepResult (Some obs) (RScalar 0.0) false ∅, e2).
Proof.
  assert (Hloop : ∃ e1, step_track_loop demo_env_ab [("b", 12)] false
                        = Ok (false, e1)) by (eexists; by vm_compute).
  destruct Hloop as [e1 Hloop].
  destruct (step_no_op_unless_completion 0 _ _ _ _ Hloop) as (Hno & _).
  do 2 eexists. by apply Hno.
Defined.

(** C1, as stated, fails: given one action each, "a" (one goal) completes
    its track while the track of "b" (two goals) is still short, and the
    call runs the rollout and returns [done = True] all the same. *)
Lemma rollout_starts_with_incomplete_track :
  ∃ res e' ag_b,
    step 2 demo_env_ab [("a", 12); ("b", 12)] = Ok (res, e') ∧
    sr_obs res = None ∧
    sr_reward res = RMap (<["a" := (0 + 1 + 1)%Q]> {["b" := (0 + 1 + 1)%Q]}) ∧
    sr_done res = true ∧
    agents e' !! "b" = Some ag_b ∧
    track_complete ag_b = false.
Proof.
  do 3 eexists. split; [by vm_compute|].
  repeat split; by vm_compute.
Qed.

(** ** The one-shot track of the left/right variant *)


Lemma torch_cat_app (ag : agent) (t1 t2 : list (option tref))
    (p1 p2 : list point) :
  torch_cat ag t1 = Ok p1 → torch_cat ag t2 = Ok p2 →
  torch_cat ag (t1 ++ t2) = Ok (p1 ++ p2).
Proof.
  revert p1. induction t1 as [|[r|] t1 IH]; intros p1 H1 H2; simpl in *.
  - by injection H1 as <-.
  - inv_bind H1. injection H1 as <-. by rewrite (IH _ E H2).
  - done.
Qed.







Section OneShot.
Context {B V : Type} `{!BaseEnv B V}.


End OneShot.


(** * Further properties of the code *)

(** ** The dummy point at the edges of its contract *)

Lemma Qdiv2 (a : Q) : (a / 2 == a * (1 # 2))%Q.
Proof. field. Qed.

Ltac qlra := rewrite ?Qdiv2 in *; lra.

(** X1: [get_dummy_point] returns [None] exactly for the points of the closed
    square [-width/2 <= x, y <= width/2]. *)
Theorem get_dummy_point_None (width length x y : Q) :
  get_dummy_point width length (x, y) = None ↔
  (- width / 2 <= x)%Q ∧ (x <= width / 2)%Q ∧
  (- width / 2 <= y)%Q ∧ (y <= width / 2)%Q.
Proof.
  unfold get_dummy_point.
  destruct (Qgtb x (width / 2)) eqn:E1;
    [apply Qgtb_true in E1|apply Qgtb_false in E1].
  { split; [done|]. intros (_ & ? & _). qlra. }
  destruct (Qltb x (- width / 2)) eqn:E2;
    [apply Qltb_true in E2|apply Qltb_false in E2].
  { split; [done|]. intros (? & _). qlra. }
  destruct (Qgtb y (width / 2)) eqn:E3;
    [apply Qgtb_true in E3|apply Qgtb_false in E3].
  { split; [done|]. intros (_ & _ & _ & ?). qlra. }
  destruct (Qltb y (- width / 2)) eqn:E4;
    [apply Qltb_true in E4|apply Qltb_false in E4].
  { split; [done|]. intros (_ & _ & ? & _). qlra. }
  by split.
Qed.

(** X2: For a point outside the square on both axes the x axis decides: the
    result keeps [y] and moves [x] to the end of the road on its side. *)
Theorem get_dummy_point_x_first (width length x y : Q) :
  (0 <= width)%Q →
  x_violated width (x, y) →
  get_dummy_point width length (x, y)
  = Some (if Qgtb x (width / 2) then (length + width / 2)%Q
          else (- (length + width / 2))%Q, y).
Proof.
  intros Hw [Hx|Hx]; cbn [fst snd] in Hx; unfold get_dummy_point.
  - by rewrite (proj2 (Qgtb_true _ _) Hx).
  - rewrite (proj2 (Qgtb_false x _)) by qlra.
    by rewrite (proj2 (Qltb_true _ _) Hx).
Qed.

Lemma get_dummy_point_x_first_witness :
  get_dummy_point 2 10 (-3, 7)%Q
  = Some (if Qgtb (-3) (2 / 2) then (10 + 2 / 2)%Q else (- (10 + 2 / 2))%Q,
          7%Q).
Proof.
  apply (get_dummy_point_x_first 2 10 (-3) 7).
  - by vm_compute.
  - right. by vm_compute.
Defined.

(** X3: With a non-negative width and a positive length, a dummy point lies
    outside the square and is its own dummy point. *)
Theorem get_dummy_point_fixed (width length : Q) (p q : point) :
  (0 <= width)%Q → (0 < length)%Q →
  get_dummy_point width length p = Some q →
  get_dummy_point width length q = Some q.
Proof.
  intros Hw Hl. destruct p as [x y]. unfold get_dummy_point.
  destruct (Qgtb x (width / 2)) eqn:E1;
    [apply Qgtb_true in E1|apply Qgtb_false in E1].
  { intros [= <-]. by rewrite (proj2 (Qgtb_true _ _)) by qlra. }
  destruct (Qltb x (- width / 2)) eqn:E2;
    [apply Qltb_true in E2|apply Qltb_false in E2].
  { intros [= <-]. rewrite (proj2 (Qgtb_false _ _)) by qlra.
    by rewrite (proj2 (Qltb_true _ _)) by qlra. }
  destruct (Qgtb y (width / 2)) eqn:E3;
    [apply Qgtb_true in E3|apply Qgtb_false in E3].
  { intros [= <-]. rewrite (proj2 (Qgtb_false x _)) by qlra.
    rewrite (proj2 (Qltb_false x _)) by qlra.
    by rewrite (proj2 (Qgtb_true _ _)) by qlra. }
  destruct (Qltb y (- width / 2)) eqn:E4;
    [apply Qltb_true in E4|apply Qltb_false in E4]; [|done].
  intros [= <-]. rewrite (proj2 (Qgtb_false x _)) by qlra.
  rewrite (proj2 (Qltb_false x _)) by qlra.
  rewrite (proj2 (Qgtb_false _ _)) by qlra.
  by rewrite (proj2 (Qltb_true _ _)) by qlra.
Qed.

Lemma get_dummy_point_fixed_witness :
  get_dummy_point 2 10 (0, - (10 + 2 / 2))%Q = Some (0, - (10 + 2 / 2))%Q.
Proof.
  apply (get_dummy_point_fixed 2 10 (0, -3)%Q); by vm_compute.
Defined.

(** ** The cursor and the observation *)

(** X5: Over any calls that return, the cursor [track_point] only moves with
    the observation reads, one step each, and stops at the number of goals:
    it ends at [min (len(intermediate_goals), track_point + reads)]; the
    number of goals never changes. *)
Theorem cursor_after_calls (width length : Q) (cs : list call) :
  ∀ ag ag',
  0 ≤ track_point ag ≤ Z.of_nat (List.length (intermediate_goals ag)) →
  run_calls width length ag cs = Ok ag' →
  List.length (intermediate_goals ag') = List.length (intermediate_goals ag) ∧
  track_point ag'
  = Z.min (Z.of_nat (List.length (intermediate_goals ag)))
          (track_point ag + Z.of_nat (observe_count cs)).
Proof.
  induction cs as [|c cs IH]; intros ag ag' Htp Hrun; simpl in Hrun.
  - injection Hrun as <-. simpl. split; [done|lia].
  - inv_bind Hrun. destruct c as [action|]; simpl in E; inv_bind E.
    + destruct a0 as [c a0]. injection E as ->.
      apply step_extend_Ok in E0
        as (i & g & ac & _ & _ & _ & Hg' & Htp' & _).
      assert (Hlen : List.length (intermediate_goals a)
                     = List.length (intermediate_goals ag))
        by by rewrite Hg', length_insert.
      destruct (IH a ag') as [Hl Ht]; [by rewrite Hlen, Htp'|done|].
      rewrite Hl, Ht, Hlen, Htp'. by simpl.
    + destruct a0 as [obs a0]. injection E as ->.
      apply get_state_single_agent_inv in E0 as [Hag1 Htp1].
      assert (Hlen : List.length (intermediate_goals a)
                     = List.length (intermediate_goals ag))
        by by rewrite Hag1.
      destruct (Z.leb_spec (Z.of_nat (List.length (intermediate_goals ag)))
                           (track_point ag)) as [Hle|Hgt].
      * destruct (IH a ag') as [Hl Ht]; [rewrite Hlen, Htp1; lia|done|].
        rewrite Hl, Ht, Hlen, Htp1. simpl. split; [done|lia].
      * destruct (IH a ag') as [Hl Ht]; [rewrite Hlen, Htp1; lia|done|].
        rewrite Hl, Ht, Hlen, Htp1. simpl. split; [done|lia].
Qed.

Lemma cursor_after_calls_witness :
  ∃ ag', run_calls 2 10 demo_agent [Observe; Observe; Observe] = Ok ag' ∧
         track_point ag' = 2.
Proof.
  assert (Hrun : ∃ ag', run_calls 2 10 demo_agent [Observe; Observe; Observe]
                        = Ok ag') by (eexists; by vm_compute).
  destruct Hrun as [ag' Hrun]. exists ag'. split; [done|].
  refine (proj2 (cursor_after_calls 2 10 _ demo_agent ag' _ Hrun)).
  by vm_compute.
Defined.

Lemma div_bound (a m : Q) :
  (0 < m)%Q → (- m <= a)%Q → (a <= m)%Q →
  (-1.0 <= a / m)%Q ∧ (a / m <= 1.0)%Q.
Proof.
  intros Hm Hlo Hhi. split.
  - apply Qle_shift_div_l; [done|]. lra.
  - apply Qle_shift_div_r; [done|]. lra.
Qed.

Lemma inv_bound (a : Q) :
  (1 <= a)%Q → (0.0 <= 1 / a)%Q ∧ (1 / a <= 1.0)%Q.
Proof.
  intros Ha. split.
  - apply Qle_shift_div_l; lra.
  - apply Qle_shift_div_r; lra.
Qed.

(** X6: The observation lies in the observation space when the world is as
    the space assumes it: width and length at least 1, and the previous
    start point and the goals within [length + width/2] of the origin. *)
Theorem observation_in_space (width length : Q) (ag : agent) (obs : tensor)
    (ag' : agent) :
  (1 <= width)%Q → (1 <= length)%Q →
  within (length + width / 2) (deref ag (previous_start_point ag)) →
  Forall (λ g, within (length + width / 2) (goal_xy g)) (intermediate_goals ag) →
  get_state_single_agent width length ag = Ok (Some obs, ag') →
  in_box get_observation_space obs.
Proof.
  intros Hw Hl (Hp1 & Hp2 & Hp3 & Hp4) Hgoals.
  unfold get_state_single_agent. destruct (_ <=? _); [done|].
  intros H. inv_bind H.
  destruct (Qeq_bool width 0); [done|].
  destruct (Qeq_bool length 0); [done|]. injection H as <- <-.
  apply py_index_Ok in E as (k & _ & Hk).
  apply (Forall_lookup_1 _ _ _ _ Hgoals) in Hk as (Hg1 & Hg2 & Hg3 & Hg4).
  assert (Hlw : (0 < length + width / 2)%Q) by qlra.
  destruct (div_bound _ _ Hlw Hp1 Hp2), (div_bound _ _ Hlw Hp3 Hp4),
    (div_bound _ _ Hlw Hg1 Hg2), (div_bound _ _ Hlw Hg3 Hg4),
    (inv_bound _ Hw), (inv_bound _ Hl).
  unfold in_box, get_observation_space. cbn [low high].
  split; repeat (constructor; [done|]); constructor.
Qed.

Lemma observation_in_space_witness :
  ∃ obs ag', get_state_single_agent 2 10 demo_agent = Ok (Some obs, ag') ∧
             in_box get_observation_space obs.
Proof.
  assert (Hobs : ∃ obs ag', get_state_single_agent 2 10 demo_agent
                            = Ok (Some obs, ag'))
    by (do 2 eexists; by vm_compute).
  destruct Hobs as (obs & ag' & Hobs). exists obs, ag'. split; [done|].
  apply (observation_in_space 2 10 demo_agent obs ag'); try done.
  repeat (apply Forall_cons_2; [repeat split; by vm_compute|]).
  apply Forall_nil_2.
Defined.

(** ** Views of the goals in the track *)

(** X7: Two extensions with no observation read between them take the same
    goal: it is offset twice, and the two track entries are views of it, so
    both hold the point offset twice. *)
Theorem extensions_without_read_alias (width length : Q) (ag ag1 ag2 : agent)
    (a1 a2 : Z) (c2 : bool) :
  step_extend width length ag a1 = Ok (false, ag1) →
  step_extend width length ag1 a2 = Ok (c2, ag2) →
  ∃ i g o1 o2,
    intermediate_goals ag !! i = Some g ∧
    py_index actions_list a1 = Ok o1 ∧
    py_index actions_list a2 = Ok o2 ∧
    track ag2 !! List.length (track ag) = Some (Some (GoalView i)) ∧
    track ag2 !! S (List.length (track ag)) = Some (Some (GoalView i)) ∧
    deref ag2 (GoalView i)
    = padd (padd (goal_xy g) (scale_offset width o1)) (scale_offset width o2).
Proof.
  intros H1 H2.
  apply step_extend_Ok in H1
    as (i & g & o1 & Hi & Hg & Ho1 & Hg1 & Htp1 & _ & _ & _ & _ & Htr1 & _).
  apply step_extend_Ok in H2
    as (i' & g' & o2 & Hi' & Hg' & Ho2 & Hg2 & _ & _ & _ & _ & -> & Hrest).
  rewrite Hg1, length_insert, Htp1, Hi in Hi'. injection Hi' as <-.
  assert (Hlt : (i < List.length (intermediate_goals ag))%nat)
    by by eapply lookup_lt_Some.
  rewrite Hg1, list_lookup_insert_eq in Hg' by done. injection Hg' as <-.
  exists i, g, o1, o2. repeat split; try done.
  - destruct (completes_now ag1); destruct Hrest as [-> _]; rewrite Htr1;
      rewrite <- (assoc_L (++)); simpl; by rewrite list_lookup_middle.
  - destruct (completes_now ag1); destruct Hrest as [-> _]; rewrite Htr1;
      (rewrite lookup_app_r by (rewrite length_app; simpl; lia));
      by replace (S _ - _)%nat with 0%nat by (rewrite length_app; simpl; lia).
  - simpl. rewrite Hg2, Hg1.
    by rewrite list_lookup_insert_eq by by rewrite length_insert.
Qed.

Lemma extensions_without_read_alias_witness :
  ∃ ag1 ag2 c2,
    step_extend 2 10 demo_agent 0 = Ok (false, ag1) ∧
    step_extend 2 10 ag1 48 = Ok (c2, ag2) ∧
    track ag2 !! 2%nat = track ag2 !! 3%nat.
Proof.
  eassert (H1 : step_extend 2 10 demo_agent 0 = Ok (false, _))
    by by vm_compute.
  match type of H1 with _ = Ok (_, ?a) =>
    eassert (H2 : step_extend 2 10 a 48 = Ok (_, _)) by by vm_compute
  end.
  do 3 eexists. split; [exact H1|]. split; [exact H2|].
  destruct (extensions_without_read_alias 2 10 _ _ _ _ _ _ H1 H2)
    as (i & g & o1 & o2 & _ & _ & _ & Ha & Hb & _).
  change (List.length (track demo_agent)) with 2%nat in Ha, Hb.
  by rewrite Ha, Hb.
Defined.

(** ** A dummy point that is [None] *)

Lemma torch_cat_no_None (ag : agent) (tr : list (option tref))
    (ps : list point) :
  torch_cat ag tr = Ok ps → None ∉ tr.
Proof.
  revert ps. induction tr as [|[r|] tr IH]; intros ps H; simpl in H.
  - apply not_elem_of_nil.
  - inv_bind H. intros Hin. apply elem_of_cons in Hin as [?|Hin]; [done|].
    by eapply IH.
  - done.
Qed.

Lemma lr_offset_goals_length (width : Q) (coord action : Z)
    (goals : list goal) (pts : list point) :
  lr_offset_goals width coord action goals = Ok pts →
  List.length pts = List.length goals.
Proof.
  revert pts. induction goals as [|g goals IH]; intros pts H; simpl in H.
  - by injection H as <-.
  - inv_bind H. injection H as <-. simpl. f_equal. by apply IH.
Qed.

(** What a left/right extension that returned did. *)
Lemma lr_step_extend_inv (width length : Q) (ag : agent) (action : Z)
    (ag' : agent) :
  lr_step_extend width length ag action = Ok ag' →
  ∃ d pts dm tr,
    int_of_last_char (road_name ag) = Ok d ∧
    lr_offset_goals width ((d + 1) mod 2) action (intermediate_goals ag)
      = Ok pts ∧
    track ag'
    = (track ag ++ ((λ q, Some (Fresh q)) <$> pts) ++ [Some (Fresh dm)]) ∧
    torch_cat ag (track ag') = Ok tr ∧
    dynamics ag' = dynamics ag ++ [(tr, true)] ∧
    intermediate_goals ag' = intermediate_goals ag ∧
    track_point ag' = track_point ag.
Proof.
  unfold lr_step_extend. intros H. inv_bind H.
  rename a into d, a0 into pts, a1 into lst, a2 into r, a3 into tr.
  destruct (get_dummy_point width length _) as [dm|] eqn:Hdm.
  2:{ apply torch_cat_no_None in E3. destruct E3. simpl.
      apply elem_of_app. right. by left. }
  injection H as <-. simpl in *.
  rewrite <- (assoc_L (++)) in E3 |- *.
  assert (Hcat : torch_cat ag (track ag ++ ((λ q, Some (Fresh q)) <$> pts)
                                 ++ [Some (Fresh dm)]) = Ok tr).
  { rewrite <- E3. by apply torch_cat_ext. }
  by exists d, pts, dm, tr.
Qed.

(** X8: Whenever the left/right extension returns: the road name ends in a
    digit, the track has grown by one waypoint per goal and one dummy point,
    no entry of it is [None], exactly one track has been registered, with
    one row per entry, and the goals and the cursor are as before. *)
Theorem lr_step_extend_returns (width length : Q) (ag : agent) (action : Z)
    (ag' : agent) :
  lr_step_extend width length ag action = Ok ag' →
  (∃ d, int_of_last_char (road_name ag) = Ok d) ∧
  List.length (track ag')
  = (List.length (track ag) + List.length (intermediate_goals ag) + 1)%nat ∧
  (None ∉ track ag') ∧
  (∃ tr, dynamics ag' = dynamics ag ++ [(tr, true)] ∧
         torch_cat ag (track ag') = Ok tr ∧
         List.length tr = List.length (track ag')) ∧
  intermediate_goals ag' = intermediate_goals ag ∧
  track_point ag' = track_point ag.
Proof.
  intros H.
  apply lr_step_extend_inv in H
    as (d & pts & dm & tr & Hd & Hpts & Htr & Hcat & Hdy & Hg & Htp).
  split; [by exists d|].
  split.
  { rewrite Htr, !length_app, length_fmap.
    rewrite (lr_offset_goals_length _ _ _ _ _ Hpts). simpl. lia. }
  split; [by eapply torch_cat_no_None|].
  split; [|done].
  exists tr. split; [done|]. split; [done|]. by eapply torch_cat_length.
Qed.

Lemma lr_step_extend_returns_witness :
  ∃ ag', lr_step_extend 2 10 demo_agent 2 = Ok ag' ∧ None ∉ track ag'.
Proof.
  eassert (H : lr_step_extend 2 10 demo_agent 2 = Ok _) by by vm_compute.
  eexists. split; [exact H|].
  by destruct (lr_step_extend_returns 2 10 _ _ _ H) as (_ & _ & Hnone & _).
Defined.

(** X9: The left/right [step] has no guard of its own against a second call
    in an episode: a second extension appends the waypoints and a dummy
    point again and registers a second, longer track. *)
Theorem lr_step_extend_twice (width length : Q) (ag ag1 ag2 : agent)
    (a1 a2 : Z) :
  lr_step_extend width length ag a1 = Ok ag1 →
  lr_step_extend width length ag1 a2 = Ok ag2 →
  List.length (track ag2)
  = (List.length (track ag) + 2 * (List.length (intermediate_goals ag) + 1))%nat ∧
  ∃ tr1 tr2,
    dynamics ag2 = dynamics ag ++ [(tr1, true); (tr2, true)] ∧
    List.length tr2
    = (List.length tr1 + List.length (intermediate_goals ag) + 1)%nat.
Proof.
  intros H1 H2.
  apply lr_step_extend_inv in H1
    as (d1 & pts1 & dm1 & tr1 & _ & Hp1 & Ht1 & Hr1 & Hd1 & Hg1 & _).
  apply lr_step_extend_inv in H2
    as (d2 & pts2 & dm2 & tr2 & _ & Hp2 & Ht2 & Hr2 & Hd2 & _).
  apply lr_offset_goals_length in Hp1, Hp2. rewrite Hg1 in Hp2.
  apply torch_cat_length in Hr1, Hr2.
  split.
  - rewrite Ht2, Ht1, !length_app, !length_fmap. simpl. lia.
  - exists tr1, tr2. split.
    + by rewrite Hd2, Hd1, <- (assoc_L (++)).
    + rewrite Hr2, Hr1, Ht2, Ht1, !length_app, !length_fmap. simpl. lia.
Qed.

Lemma lr_step_extend_twice_witness :
  ∃ ag1 ag2,
    lr_step_extend 2 10 demo_agent 2 = Ok ag1 ∧
    lr_step_extend 2 10 ag1 0 = Ok ag2 ∧
    List.length (track ag2) = 8%nat.
Proof.
  eassert (H1 : lr_step_extend 2 10 demo_agent 2 = Ok _) by by vm_compute.
  match type of H1 with _ = Ok ?a =>
    eassert (H2 : lr_step_extend 2 10 a 0 = Ok _) by by vm_compute
  end.
  do 2 eexists. split; [exact H1|]. split; [exact H2|].
  apply (lr_step_extend_twice 2 10 _ _ _ _ _ H1 H2).
Defined.

(** A track that holds [None] is never registered: no calls of the
    full-offset variant that return change the dynamics model or remove the
    entry, and the left/right extension never returns. *)
Lemma none_entry_blocks_registration (width length : Q) (ag : agent) :
  None ∈ track ag →
  (∀ cs ag', run_calls width length ag cs = Ok ag' →
             dynamics ag' = dynamics ag ∧ None ∈ track ag') ∧
  (∀ action ag', lr_step_extend width length ag action ≠ Ok ag').
Proof.
  intros Hnone. split.
  - intros cs. revert ag Hnone.
    induction cs as [|c cs IH]; intros ag Hnone ag' Hrun; simpl in Hrun.
    + by injection Hrun as <-.
    + inv_bind Hrun. destruct c as [action|]; simpl in E; inv_bind E.
      * destruct a0 as [c a0]. injection E as ->.
        apply step_extend_Ok in E0
          as (i & g & ac & _ & _ & _ & _ & _ & _ & _ & _ & _ & Hrest).
        destruct c.
        -- destruct Hrest as (Htr & tr & Hcat & _).
           apply torch_cat_no_None in Hcat. destruct Hcat.
           rewrite Htr. apply elem_of_app. by left.
        -- destruct Hrest as (Htr & Hdy).
           destruct (IH a) with (ag' := ag') as [Hd Hn]; [|done|].
           { rewrite Htr. apply elem_of_app. by left. }
           by rewrite Hd, Hdy.
      * destruct a0 as [obs a0]. injection E as ->.
        apply get_state_single_agent_inv in E0 as [Hag1 _].
        destruct (IH a) with (ag' := ag') as [Hd Hn];
          [by rewrite Hag1|done|].
        split; [|done]. by rewrite Hd, Hag1.
  - intros action ag' H.
    apply lr_step_extend_inv in H
      as (d & pts & dm & tr & _ & _ & Htr & Hcat & _).
    apply torch_cat_no_None in Hcat.
    apply Hcat. rewrite Htr. apply elem_of_app. by left.
Qed.

Section StartInside.
Context {B V : Type} `{!BaseEnv B V}.

(** X10: [add_vehicle] for a vehicle placed inside the square stores [None] as
    the leading dummy point, and the agent can then never have a track
    registered: no calls of the full-offset variant that return change its
    dynamics model (the completing call raises), and no call of the
    left/right variant returns. *)
Theorem start_inside_never_registers (e : env B V) (a_id : string)
    (args ret : V) (e' : env B V) (ag : agent) :
  add_vehicle e a_id args = Ok (ret, e') →
  agents e' !! a_id = Some ag →
  get_dummy_point (width e') (length e') (position (vehicle ag)) = None →
  track ag = [None; Some PosView] ∧
  (∀ cs ag', run_calls (width e') (length e') ag cs = Ok ag' →
             dynamics ag' = dynamics ag) ∧
  (∀ action ag', lr_step_extend (width e') (length e') ag action ≠ Ok ag').
Proof.
  intros Hadd Hag Hnone.
  apply add_vehicle_Ok in Hadd as (ag0 & Hag0 & Htp & _ & Htr).
  rewrite Hag in Hag0. injection Hag0 as <-. rewrite Hnone in Htr.
  split; [done|].
  assert (Hin : None ∈ track ag) by (rewrite Htr; by left).
  destruct (none_entry_blocks_registration (width e') (length e') ag Hin)
    as [Hfull Hlr].
  split; [|done]. intros cs ag' Hrun. by destruct (Hfull cs ag' Hrun).
Qed.

End StartInside.

Lemma start_inside_never_registers_witness :
  ∃ e' ag,
    add_vehicle demo_env "a" [0; 0; 0; 3]%Q = Ok ([], e') ∧
    agents e' !! "a" = Some ag ∧
    track ag = [None; Some PosView].
Proof.
  eassert (Hadd : add_vehicle demo_env "a" [0; 0; 0; 3]%Q = Ok ([], _))
    by by vm_compute.
  match type of Hadd with _ = Ok (_, ?x) =>
    eassert (Hag : agents x !! "a" = Some _) by by vm_compute
  end.
  do 2 eexists. split; [exact Hadd|]. split; [exact Hag|].
  apply (start_inside_never_registers _ _ _ _ _ _ Hadd Hag). by vm_compute.
Defined.

(** ** Errors and edges of the left/right extension *)

Lemma int_of_last_char_cases (s : string) :
  (∃ d, int_of_last_char s = Ok d ∧ 0 ≤ d ≤ 9) ∨
  (s = "" ∧ int_of_last_char s = Raise IndexError) ∨
  (s ≠ "" ∧ int_of_last_char s = Raise ValueError).
Proof.
  unfold int_of_last_char. destruct (last_char s) as [c|] eqn:Hc.
  - destruct (_ && _) eqn:Hd.
    + left. eexists. split; [done|]. lia.
    + right. right. split; [|done]. by intros ->.
  - right. left. split; [|done].
    destruct s as [|a s]; [done|]. exfalso. revert a Hc.
    induction s as [|b s IH]; intros a Hc; simpl in Hc; [done|].
    by eapply IH.
Qed.

(** X11: The road name is read first: an empty name raises [IndexError] and a
    name that does not end in a decimal digit raises [ValueError], whatever
    the action, the goals and the track. *)
Theorem lr_step_extend_errors (width length : Q) (ag : agent) (action : Z) :
  (road_name ag = "" →
     lr_step_extend width length ag action = Raise IndexError) ∧
  (road_name ag ≠ "" →
   (∀ d, int_of_last_char (road_name ag) ≠ Ok d) →
     lr_step_extend width length ag action = Raise ValueError).
Proof.
  unfold lr_step_extend.
  destruct (int_of_last_char_cases (road_name ag))
    as [(d & Hd & _)|[[Hs Hd]|[Hs Hd]]]; rewrite Hd; simpl.
  - split; [intros Hs; by rewrite Hs in Hd|].
    intros _ Hno. by destruct (Hno d).
  - by split.
  - by split.
Qed.

Lemma lr_step_extend_errors_witness :
  lr_step_extend 2 10
    (Agent (Vehicle (0, -5)%Q 0 0) [] "north" [] 0 PosView []) 1
  = Raise ValueError.
Proof.
  refine (proj2 (lr_step_extend_errors 2 10 _ 1) _ _).
  - done.
  - intros d. by vm_compute.
Defined.

(** X12: The catalog is indexed inside the loop over the goals.  With at least
    one goal (and a road name ending in a digit) an action outside
    [[-3, 3)] raises [IndexError]; for an agent without intermediate goals
    the action is never looked at, and any index, also one outside the
    catalog, gives the same result. *)
Theorem lr_action_checked_with_goals (width length : Q) (ag : agent) :
  (∀ d action,
     int_of_last_char (road_name ag) = Ok d →
     intermediate_goals ag ≠ [] →
     action < - Z.of_nat (List.length lr_actions_list)
     ∨ Z.of_nat (List.length lr_actions_list) ≤ action →
     lr_step_extend width length ag action = Raise IndexError) ∧
  (intermediate_goals ag = [] →
   ∀ a1 a2, lr_step_extend width length ag a1
            = lr_step_extend width length ag a2).
Proof.
  split.
  - intros d action Hd Hg Hbad. unfold lr_step_extend. rewrite Hd. simpl.
    destruct (intermediate_goals ag) as [|g goals]; [done|]. simpl.
    by rewrite py_index_out_of_range.
  - intros Hg a1 a2. unfold lr_step_extend. by rewrite Hg.
Qed.

Lemma lr_action_checked_with_goals_witness :
  lr_step_extend 2 10 demo_agent 3 = Raise IndexError ∧
  lr_step_extend 2 10 (set_intermediate_goals [] demo_agent) 0
  = lr_step_extend 2 10 (set_intermediate_goals [] demo_agent) 1000.
Proof.
  split.
  - refine (proj1 (lr_action_checked_with_goals 2 10 demo_agent) 0 3 _ _ _).
    + by vm_compute.
    + done.
    + right. by vm_compute.
  - by apply (proj2 (lr_action_checked_with_goals 2 10
                       (set_intermediate_goals [] demo_agent))).
Defined.

Lemma lr_offset_goals_axis (width : Q) (coord action : Z) (goals : list goal)
    (pts : list point) :
  lr_offset_goals width coord action goals = Ok pts →
  Forall2 (λ g p, if coord =? 0 then p.2 = (goal_xy g).2
                  else p.1 = (goal_xy g).1) goals pts.
Proof.
  revert pts. induction goals as [|g goals IH]; intros pts H; simpl in H.
  - injection H as <-. constructor.
  - inv_bind H. injection H as <-. constructor; [|by apply IH].
    unfold offset_coord. by destruct (coord =? 0).
Qed.

(** X13: Which axis a road offsets: on a road whose index is even every
    waypoint keeps the x of its goal (the offset goes to y), on a road whose
    index is odd it keeps the y. *)
Theorem lr_offset_axis_by_road (width length : Q) (ag : agent) (action d : Z)
    (ag' : agent) (j : nat) (g : goal) :
  lr_step_extend width length ag action = Ok ag' →
  int_of_last_char (road_name ag) = Ok d →
  intermediate_goals ag !! j = Some g →
  ∃ p, track ag' !! (List.length (track ag) + j)%nat = Some (Some (Fresh p)) ∧
       if Z.even d then p.1 = (goal_xy g).1 else p.2 = (goal_xy g).2.
Proof.
  intros H Hd Hg.
  apply lr_step_extend_inv in H
    as (d' & pts & dm & tr & Hd' & Hpts & Htr & _).
  rewrite Hd in Hd'. injection Hd' as <-.
  apply lr_offset_goals_axis in Hpts.
  destruct (Forall2_lookup_l _ _ _ _ _ Hpts Hg) as (p & Hp & Hax).
  exists p. split.
  - pose proof (lookup_lt_Some _ _ _ Hp) as Hlt.
    rewrite Htr, lookup_app_r by lia.
    replace (_ + j - _)%nat with j by lia.
    rewrite lookup_app_l by by rewrite length_fmap.
    rewrite list_lookup_fmap. unfold point in *. by rewrite Hp.
  - rewrite Zmod_odd, Z.add_1_r, Z.odd_succ in Hax.
    by destruct (Z.even d).
Qed.

Lemma lr_offset_axis_by_road_witness :
  ∃ ag' p, lr_step_extend 2 10 demo_agent 2 = Ok ag' ∧
           track ag' !! 3%nat = Some (Some (Fresh p)) ∧
           p.1 = 3%Q.
Proof.
  eassert (H : lr_step_extend 2 10 demo_agent 2 = Ok _) by by vm_compute.
  destruct (lr_offset_axis_by_road 2 10 demo_agent 2 0 _ 1 (Goal (3, 0)%Q []) H)
    as (p & Hp & Hax); [by vm_compute|done|].
  eexists _, p. split; [exact H|]. split; [exact Hp|exact Hax].
Defined.

(** ** The track loops, agent by agent *)

Section Loops.
Context {B V : Type} `{!BaseEnv B V}.

(** X14: With one action per agent, the loop of the full-offset [step] is the
    extension of each named agent, taken from the table as it was before
    the call; the other agents and the rest of the environment are left as
    they were. *)
Theorem step_track_loop_pointwise (actions : list (string * Z)) :
  NoDup actions.*1 →
  ∀ (e : env B V) (c0 c : bool) (e1 : env B V),
  step_track_loop e actions c0 = Ok (c, e1) →
  (width e1 = width e ∧ length e1 = length e ∧
   curr_actions e1 = curr_actions e ∧ prev_state e1 = prev_state e ∧
   base e1 = base e) ∧
  (∀ k, k ∉ actions.*1 → agents e1 !! k = agents e !! k) ∧
  (∀ a_id action, (a_id, action) ∈ actions →
     ∃ ag c' ag',
       agents e !! a_id = Some ag ∧
       step_extend (width e) (length e) ag action = Ok (c', ag') ∧
       agents e1 !! a_id = Some ag').
Proof.
  induction actions as [|[k act] actions IH]; intros Hnd e c0 c e1 H.
  - simpl in H. injection H as <- <-. split; [done|]. split; [done|].
    intros a_id action Hin. by apply elem_of_nil in Hin.
  - simpl in H. inv_bind H. destruct a0 as [c' ag'].
    apply getitem_Ok in E.
    simpl in Hnd. apply NoDup_cons in Hnd as [Hk Hnd].
    destruct (IH Hnd _ _ _ _ H) as (Hrest & Hframe & Hin). simpl in *.
    split; [done|]. split.
    + intros x Hx. rewrite Hframe.
      * rewrite lookup_insert_ne; [done|]. intros ->. apply Hx. by left.
      * intros Hx'. apply Hx. by right.
    + intros a_id action Hmem.
      apply elem_of_cons in Hmem as [Heq|Hmem].
      * injection Heq as -> ->. exists a, c', ag'.
        split; [done|]. split; [done|].
        by rewrite Hframe, lookup_insert_eq.
      * destruct (Hin _ _ Hmem) as (ag & c2 & ag2 & Hag & Hext & Hag2).
        exists ag, c2, ag2. split; [|done].
        rewrite lookup_insert_ne in Hag; [done|]. intros ->. apply Hk.
        apply list_elem_of_fmap. by exists (a_id, action).
Qed.

(** X15: With one action per agent, the loop of the left/right [step] is the
    extension of each named agent, taken from the table as it was before
    the call; the other agents and the rest of the environment are left as
    they were. *)
Theorem lr_step_track_loop_pointwise (actions : list (string * Z)) :
  NoDup actions.*1 →
  ∀ (e e1 : env B V),
  lr_step_track_loop e actions = Ok e1 →
  (width e1 = width e ∧ length e1 = length e ∧
   curr_actions e1 = curr_actions e ∧ prev_state e1 = prev_state e ∧
   base e1 = base e) ∧
  (∀ k, k ∉ actions.*1 → agents e1 !! k = agents e !! k) ∧
  (∀ a_id action, (a_id, action) ∈ actions →
     ∃ ag ag',
       agents e !! a_id = Some ag ∧
       lr_step_extend (width e) (length e) ag action = Ok ag' ∧
       agents e1 !! a_id = Some ag').
Proof.
  induction actions as [|[k act] actions IH]; intros Hnd e e1 H.
  - simpl in H. injection H as <-. split; [done|]. split; [done|].
    intros a_id action Hin. by apply elem_of_nil in Hin.
  - simpl in H. inv_bind H. rename a0 into ag'.
    apply getitem_Ok in E.
    simpl in Hnd. apply NoDup_cons in Hnd as [Hk Hnd].
    destruct (IH Hnd _ _ H) as (Hrest & Hframe & Hin). simpl in *.
    split; [done|]. split.
    + intros x Hx. rewrite Hframe.
      * rewrite lookup_insert_ne; [done|]. intros ->. apply Hx. by left.
      * intros Hx'. apply Hx. by right.
    + intros a_id action Hmem.
      apply elem_of_cons in Hmem as [Heq|Hmem].
      * injection Heq as -> ->. exists a, ag'.
        split; [done|]. split; [done|].
        by rewrite Hframe, lookup_insert_eq.
      * destruct (Hin _ _ Hmem) as (ag & ag2 & Hag & Hext & Hag2).
        exists ag, ag2. split; [|done].
        rewrite lookup_insert_ne in Hag; [done|]. intros ->. apply Hk.
        apply list_elem_of_fmap. by exists (a_id, action).
Qed.

(** X16: The first item of [actions] decides the first error: an id that is not
    in the agent table raises [KeyError] in either variant, and an agent
    without intermediate goals raises [IndexError] in the full-offset
    variant, whatever the action. *)
Theorem step_first_item_errors (fuel : nat) (e : env B V) (a_id : string)
    (action : Z) (rest : list (string * Z)) :
  (agents e !! a_id = None →
     step fuel e ((a_id, action) :: rest) = Raise KeyError ∧
     lr_step fuel e ((a_id, action) :: rest) = Raise KeyError) ∧
  (∀ ag, agents e !! a_id = Some ag → intermediate_goals ag = [] →
     step fuel e ((a_id, action) :: rest) = Raise IndexError).
Proof.
  split.
  - intros Hnone. unfold step, lr_step. simpl. unfold getitem.
    by rewrite Hnone.
  - intros ag Hag Hg. unfold step. simpl. unfold getitem. rewrite Hag. simpl.
    unfold step_extend. rewrite Hg.
    by destruct (py_index_cases (@nil goal) (track_point ag - 1))
      as [[g Hok] | ->]; [apply py_index_Ok in Hok as (k & _ & Hk)|].
Qed.

End Loops.

Lemma step_track_loop_pointwise_witness :
  ∃ e1, step_track_loop demo_env_ab [("b", 12)] false = Ok (false, e1) ∧
        agents e1 !! "a" = Some demo_agent_short.
Proof.
  eassert (H : step_track_loop demo_env_ab [("b", 12)] false = Ok (false, _))
    by by vm_compute.
  eexists. split; [exact H|].
  assert (Hnd : NoDup [("b", 12)].*1) by (repeat constructor; set_solver).
  destruct (step_track_loop_pointwise _ Hnd _ _ _ _ H) as (_ & Hframe & _).
  rewrite Hframe; [by vm_compute|].
  apply not_elem_of_cons. split; [done|apply not_elem_of_nil].
Defined.

Lemma lr_step_track_loop_pointwise_witness :
  ∃ e1, lr_step_track_loop demo_env_ab [("b", 2)] = Ok e1 ∧
        agents e1 !! "a" = Some demo_agent_short.
Proof.
  eassert (H : lr_step_track_loop demo_env_ab [("b", 2)] = Ok _)
    by by vm_compute.
  eexists. split; [exact H|].
  assert (Hnd : NoDup [("b", 2)].*1) by (repeat constructor; set_solver).
  destruct (lr_step_track_loop_pointwise _ Hnd _ _ H) as (_ & Hframe & _).
  rewrite Hframe; [by vm_compute|].
  apply not_elem_of_cons. split; [done|apply not_elem_of_nil].
Defined.

Lemma step_first_item_errors_witness :
  step 0 demo_env_a [("z", 0)] = Raise KeyError ∧
  lr_step 0 demo_env_a [("z", 0)] = Raise KeyError.
Proof.
  apply (proj1 (step_first_item_errors 0 demo_env_a "z" 0 [])).
  by vm_compute.
Defined.

(** ** When the rollout returns *)

Lemma accumulate_inv (items : list (string * Q)) :
  ∀ rewards rewards' : gmap string Q,
  accumulate rewards items = Ok rewards' →
  (∀ k, k ∈ items.*1 → is_Some (rewards !! k)) ∧
  (∀ k, is_Some (rewards' !! k) ↔ is_Some (rewards !! k)).
Proof.
  induction items as [|[k r] items IH]; intros rewards rewards' H; simpl in H.
  - injection H as <-. split; [|done]. intros k Hk. by apply elem_of_nil in Hk.
  - inv_bind H. unfold add_reward in E. inv_bind E. injection E as <-.
    apply getitem_Ok in E0. simpl in *.
    destruct (IH _ _ H) as [Hkeys Hdom].
    assert (Hins : ∀ x, is_Some (<[k := (a0 + r)%Q]> rewards !! x)
                        ↔ is_Some (rewards !! x)).
    { intros x. destruct (decide (k = x)) as [->|Hne].
      - rewrite lookup_insert_eq, E0. by split.
      - by rewrite lookup_insert_ne. }
    split.
    + intros x Hx. apply elem_of_cons in Hx as [->|Hx]; [by rewrite E0|].
      apply Hins. by apply Hkeys.
    + intros x. by rewrite Hdom, Hins.
Qed.

Section RolloutReturns.
Context {B V : Type} `{!BaseEnv B V}.

(** X17: The loop returns exactly when the base environment reports [done]
    within the fuel and every id it rewarded up to there is a key of
    [rewards]: it does not return before a [done] tick, and a reward for an
    unknown id ends it with an exception. *)
Theorem rollout_returns_iff (fuel : nat) :
  ∀ (e : env B V) (rewards : gmap string Q),
  (∃ r, rollout fuel e rewards = Ok r) ↔
  (∃ rews, ticks fuel e = Some rews ∧
           Forall (λ rew : gmap string Q,
                     ∀ k, is_Some (rew !! k) → is_Some (rewards !! k)) rews).
Proof.
  intros e rewards. split.
  - revert e rewards. induction fuel as [|fuel IH]; intros e rewards [r H];
      [done|].
    simpl in H |- *. destruct (tick e) as [[rew done] e1].
    inv_bind H. destruct (accumulate_inv _ _ _ E) as [Hkeys Hdom].
    assert (Hrew : ∀ k, is_Some (rew !! k) → is_Some (rewards !! k)).
    { intros k [q Hq]. apply Hkeys. apply list_elem_of_fmap.
      exists (k, q). split; [done|]. by apply elem_of_map_to_list. }
    destruct done.
    + exists [rew]. split; [done|]. by apply Forall_singleton.
    + destruct (IH e1 a) as (rews & -> & Hall); [by exists r|].
      exists (rew :: rews). split; [done|]. apply Forall_cons_2; [done|].
      eapply Forall_impl; [exact Hall|]. simpl. intros rew' Hk k Hsome.
      apply Hdom. by apply Hk.
  - intros (rews & Hticks & Hkeys).
    destruct (rollout_sums fuel e rewards rews Hticks Hkeys)
      as (rw & e' & -> & _).
    by eexists.
Qed.

Lemma get_internal_state_loop_keys (ids : list string) :
  ∀ (e : env B V) (st states : gmap string V) (e' : env B V),
  get_internal_state_loop e ids st = (states, e') →
  ∀ id, is_Some (states !! id) ↔ id ∈ ids ∨ is_Some (st !! id).
Proof.
  induction ids as [|x ids IH]; intros e st states e' H id; simpl in H.
  - injection H as <- <-. split; [by right|].
    intros [Hin|?]; [|done]. by apply elem_of_nil in Hin.
  - destruct (super_get_state_single_agent e x) as [obs e1].
    rewrite (IH _ _ _ _ H id). rewrite elem_of_cons.
    destruct (decide (x = id)) as [->|Hne].
    + rewrite lookup_insert_eq. split; [by left; left|by right].
    + rewrite lookup_insert_ne by done. split.
      * intros [?|?]; [left; by right|by right].
      * intros [[?|?]|?]; [done|by left|by right].
Qed.

(** X18: [get_internal_state] returns one observation for every id of
    [get_agent_ids_list] and for nothing else, and stores the same dict as
    [prev_state]. *)
Theorem get_internal_state_keys (e : env B V) (states : gmap string V)
    (e' : env B V) :
  get_internal_state e = (states, e') →
  prev_state e' = states ∧
  ∀ id, is_Some (states !! id) ↔ id ∈ get_agent_ids_list e.
Proof.
  unfold get_internal_state.
  destruct (get_internal_state_loop e (get_agent_ids_list e) ∅)
    as [st e1] eqn:Hloop.
  intros [= <- <-]. split; [done|]. intros id.
  rewrite (get_internal_state_loop_keys _ _ _ _ _ Hloop id).
  rewrite lookup_empty. split; [|by left].
  intros [?|[? ?]]; done.
Qed.

End RolloutReturns.

Lemma get_internal_state_keys_witness :
  ∃ states e', get_internal_state demo_env_ab = (states, e') ∧
               prev_state e' = states ∧ is_Some (states !! "b").
Proof.
  eassert (H : get_internal_state demo_env_ab = (_, _)) by by vm_compute.
  do 2 eexists. split; [exact H|].
  destruct (get_internal_state_keys _ _ _ H) as [Hprev Hkeys].
  split; [exact Hprev|]. apply Hkeys. vm_compute. right. by left.
Defined.

(** ** [transform_state_action] over all agents *)

Section TransformAll.
Context {B V : Type} `{!BaseEnv B V}.

Lemma transform_state_action_single_agent_inv (e : env B V) (a_id : string)
    (action : Z) (state : V) (timesteps : Z) na ns ex (e' : env B V) :
  transform_state_action_single_agent e a_id action state timesteps
  = Ok ((na, ns, ex), e') →
  na = [0; 0; 0; 0]%Q ∧ ns = [0; 0; 0; 0]%Q ∧
  ∃ ac, e' = set_curr_actions (<[a_id := [ac]]> (curr_actions e)) e.
Proof.
  unfold transform_state_action_single_agent. intros H. inv_bind H.
  destruct (position (vehicle a)). inv_bind H. injection H as <- <- <- <-.
  eauto.
Qed.

Lemma transform_state_action_loop_inv (ids : list string)
    (actions : gmap string Z) (states : gmap string V) (timesteps : Z) :
  ∀ (e : env B V) na0 ns0 ex0 na ns ex (e' : env B V),
  transform_state_action_loop e ids actions states timesteps (na0, ns0, ex0)
  = Ok (na, ns, ex, e') →
  agents e' = agents e ∧
  ∀ id,
    (id ∈ ids →
       na !! id = Some [0; 0; 0; 0]%Q ∧ ns !! id = Some [0; 0; 0; 0]%Q ∧
       is_Some (ex !! id) ∧ is_Some (curr_actions e' !! id) ∧
       is_Some (actions !! id) ∧ is_Some (states !! id)) ∧
    (id ∉ ids →
       na !! id = na0 !! id ∧ ns !! id = ns0 !! id ∧ ex !! id = ex0 !! id ∧
       curr_actions e' !! id = curr_actions e !! id).
Proof.
  induction ids as [|x ids IH]; intros e na0 ns0 ex0 na ns ex e' H;
    simpl in H.
  - injection H as <- <- <- <-. split; [done|]. intros id. split; [|done].
    intros Hin. by apply elem_of_nil in Hin.
  - inv_bind H. destruct a1 as [[[na1 ns1] ex1] e1].
    apply getitem_Ok in E, E0.
    apply transform_state_action_single_agent_inv in E1
      as (-> & -> & ac & ->).
    destruct (IH _ _ _ _ _ _ _ _ H) as [Hag Hids]. simpl in Hag.
    split; [done|]. intros id. destruct (Hids id) as [Hin Hout].
    split.
    + intros Hmem. destruct (decide (id ∈ ids)) as [?|Hno]; [by apply Hin|].
      apply elem_of_cons in Hmem as [->|?]; [|done].
      destruct (Hout Hno) as (Hna & Hns & Hex & Hca). simpl in Hca.
      rewrite lookup_insert_eq in Hna. rewrite lookup_insert_eq in Hns.
      rewrite lookup_insert_eq in Hex. rewrite lookup_insert_eq in Hca.
      split; [exact Hna|]. split; [exact Hns|].
      split; [eexists; exact Hex|]. split; [eexists; exact Hca|].
      by rewrite E, E0.
    + intros Hno. apply not_elem_of_cons in Hno as [Hne Hno].
      destruct (Hout Hno) as (Hna & Hns & Hex & Hca). simpl in Hca.
      rewrite lookup_insert_ne in Hna by done.
      rewrite lookup_insert_ne in Hns by done.
      rewrite lookup_insert_ne in Hex by done.
      rewrite lookup_insert_ne in Hca by done.
      split; [exact Hna|]. split; [exact Hns|]. split; [exact Hex|exact Hca].
Qed.

(** X19: When [transform_state_action] returns, every id of
    [get_agent_ids_list] had an action and a state, has the zero goal and
    start vectors, a nominal trajectory and a recorded current action; ids
    outside the list have no entry and keep their current action; the agent
    table is unchanged. *)
Theorem transform_state_action_returns (e : env B V) (actions : gmap string Z)
    (states : gmap string V) (timesteps : Z) nactions nstates extras
    (e' : env B V) :
  transform_state_action e actions states timesteps
  = Ok (nactions, nstates, extras, e') →
  agents e' = agents e ∧
  ∀ id,
    (id ∈ get_agent_ids_list e →
       nactions !! id = Some [0; 0; 0; 0]%Q ∧
       nstates !! id = Some [0; 0; 0; 0]%Q ∧
       is_Some (extras !! id) ∧ is_Some (curr_actions e' !! id) ∧
       is_Some (actions !! id) ∧ is_Some (states !! id)) ∧
    (id ∉ get_agent_ids_list e →
       nactions !! id = None ∧ nstates !! id = None ∧ extras !! id = None ∧
       curr_actions e' !! id = curr_actions e !! id).
Proof.
  unfold transform_state_action. intros H.
  destruct (transform_state_action_loop_inv _ _ _ _ _ _ _ _ _ _ _ _ H)
    as [Hag Hids].
  split; [done|]. intros id. destruct (Hids id) as [Hin Hout].
  split; [done|]. intros Hno.
  destruct (Hout Hno) as (Hna & Hns & Hex & Hca).
  rewrite lookup_empty in Hna. rewrite lookup_empty in Hns.
  rewrite lookup_empty in Hex.
  split; [exact Hna|]. split; [exact Hns|]. split; [exact Hex|exact Hca].
Qed.

End TransformAll.

Lemma transform_state_action_returns_witness :
  ∃ nactions nstates extras e',
    transform_state_action demo_env_a {["a" := 8]} {["a" := []]} 2
    = Ok (nactions, nstates, extras, e') ∧
    nactions !! "a" = Some [0; 0; 0; 0]%Q.
Proof.
  eassert (H : transform_state_action demo_env_a {["a" := 8]} {["a" := []]} 2
               = Ok (_, _, _, _)) by by vm_compute.
  do 4 eexists. split; [exact H|].
  destruct (transform_state_action_returns _ _ _ _ _ _ _ _ H) as [_ Hids].
  apply Hids. vm_compute. by left.
Defined.

(** ** The registry *)

Section RegistryFacts.
Context {C : Type} (issubclass : C → C → bool).

Lemma registry_loop_lookup (base : C) (clsmembers : list (string * C)) :
  NoDup clsmembers.*1 →
  ∀ (reg : gmap string C) (n : string) (c : C),
  registry_loop issubclass base clsmembers reg !! n = Some c ↔
  ((n, c) ∈ clsmembers ∧ issubclass c base = true) ∨
  ((∀ c', (n, c') ∈ clsmembers → issubclass c' base = false) ∧
   reg !! n = Some c).
Proof.
  induction clsmembers as [|[k cls] ms IH]; intros Hnd reg n c; simpl.
  - split; [intros ?; right; split; [|done]|].
    + intros c' Hin. by apply elem_of_nil in Hin.
    + intros [[Hin _]|[_ ?]]; [by apply elem_of_nil in Hin|done].
  - simpl in Hnd. apply NoDup_cons in Hnd as [Hk Hnd].
    rewrite (IH Hnd).
    assert (Hfresh : ∀ c', (k, c') ∉ ms).
    { intros c' Hin. apply Hk. apply list_elem_of_fmap. by exists (k, c'). }
    destruct (issubclass cls base) eqn:Hsub; split.
    + intros [[Hin Hs]|[Hno Hl]]; [left; split; [by right|done]|].
      destruct (decide (k = n)) as [->|Hne].
      * rewrite lookup_insert_eq in Hl. injection Hl as <-.
        left. split; [by left|done].
      * rewrite lookup_insert_ne in Hl by done. right. split; [|done].
        intros c' Hin. apply elem_of_cons in Hin as [Heq|Hin]; [|by apply Hno].
        by injection Heq as -> _.
    + intros [[Hin Hs]|[Hno Hl]].
      * apply elem_of_cons in Hin as [Heq|Hin]; [|by left].
        injection Heq as -> ->. right. split; [|by rewrite lookup_insert_eq].
        intros c' Hin. by destruct (Hfresh c').
      * right. split; [intros c' Hin; apply Hno; by right|].
        rewrite lookup_insert_ne; [done|]. intros ->.
        rewrite (Hno cls) in Hsub; [done|by left].
    + intros [[Hin Hs]|[Hno Hl]]; [left; split; [by right|done]|].
      right. split; [|done]. intros c' Hin.
      apply elem_of_cons in Hin as [Heq|Hin]; [|by apply Hno].
      by injection Heq as -> ->.
    + intros [[Hin Hs]|[Hno Hl]].
      * apply elem_of_cons in Hin as [Heq|Hin]; [|by left].
        injection Heq as -> ->. congruence.
      * right. split; [intros c' Hin; apply Hno; by right|done].
Qed.

(** X20: The registry of the module holds, under the name it is bound to,
    every class bound in the module that is a subclass of
    [BaseMultiAgentDrivingEnvironment], and nothing else; as a class is a
    subclass of itself, the base class is registered too. *)
Theorem module_registry_entries (ns : string → C) :
  (∀ c, issubclass c c = true) →
  (∀ n c,
     module_registry issubclass ns !! n = Some c ↔
     n ∈ registry_class_names ∧ c = ns n ∧
     issubclass c (ns "BaseMultiAgentDrivingEnvironment") = true) ∧
  module_registry issubclass ns !! "BaseMultiAgentDrivingEnvironment"
  = Some (ns "BaseMultiAgentDrivingEnvironment").
Proof.
  intros Hrefl.
  assert (Hnd : NoDup (module_clsmembers ns).*1).
  { change ((module_clsmembers ns).*1) with registry_class_names.
    apply (bool_decide_unpack _). by vm_compute. }
  assert (Hall : ∀ n c,
            module_registry issubclass ns !! n = Some c ↔
            n ∈ registry_class_names ∧ c = ns n ∧
            issubclass c (ns "BaseMultiAgentDrivingEnvironment") = true).
  { intros n c. unfold module_registry, build_registry.
    rewrite (registry_loop_lookup _ _ Hnd). rewrite lookup_empty.
    unfold module_clsmembers. rewrite list_elem_of_fmap. split.
    - intros [[(m & [= -> ->] & Hm) Hs]|[_ ?]]; done.
    - intros (Hn & -> & Hs). left. split; [|done]. by exists n. }
  split; [exact Hall|]. apply Hall. split; [by left|]. by split.
Qed.

End RegistryFacts.

Lemma module_registry_entries_witness :
  module_registry toy_issubclass (λ n, String.length n)
    !! "BaseMultiAgentDrivingEnvironment"
  = Some (String.length "BaseMultiAgentDrivingEnvironment").
Proof.
  apply (module_registry_entries toy_issubclass (λ n, String.length n)).
  intros c. unfold toy_issubclass. by rewrite Nat.eqb_refl.
Defined.

(** ** The track an episode of the full-offset variant registers *)

Lemma protocol_cons (a : Z) (acts : list Z) :
  protocol (a :: acts) = Observe :: Extend a :: protocol acts.
Proof. done. Qed.

Lemma torch_cat_views (ag : agent) (n : nat) :
  ∀ j, (j + n ≤ List.length (intermediate_goals ag))%nat →
  torch_cat ag ((λ i, Some (GoalView i)) <$> seq j n)
  = Ok (goal_xy <$> take n (drop j (intermediate_goals ag))).
Proof.
  induction n as [|n IH]; intros j Hj; [done|].
  destruct (lookup_lt_is_Some_2 (intermediate_goals ag) j) as [g Hg]; [lia|].
  rewrite (drop_S _ _ _ Hg). cbn [seq fmap list_fmap take torch_cat deref].
  change (list_fmap _ _ ?f ?l) with (f <$> l).
  rewrite IH by lia. simpl. by rewrite Hg.
Qed.

Lemma views_snoc (n : nat) :
  (λ i, Some (GoalView i)) <$> seq 0 (n + 1)
  = ((λ i, Some (GoalView i)) <$> seq 0 n) ++ [Some (GoalView n)].
Proof. by rewrite Nat.add_1_r, seq_S, fmap_app. Qed.

(** Rounds of one observation read and one extension each, from a state
    in which [pre] goals are done and [rest] are to come. *)
Lemma protocol_run (width length : Q) (acts : list Z) :
  ∀ (offs : list point) (rest pre : list goal) (ag : agent)
    (t0 : list (option tref)) (ag' : agent),
  Forall2 (λ a o, py_index actions_list a = Ok o) acts offs →
  List.length acts = List.length rest → acts ≠ [] →
  intermediate_goals ag = pre ++ rest →
  track_point ag = Z.of_nat (List.length pre) →
  track ag = t0 ++ ((λ i, Some (GoalView i)) <$> seq 0 (List.length pre)) →
  List.length t0 = 2%nat →
  run_calls width length ag (protocol acts) = Ok ag' →
  intermediate_goals ag' = pre ++ zip_with (shift_goal width) rest offs ∧
  vehicle ag' = vehicle ag ∧
  ∃ glast dm tr,
    last (intermediate_goals ag') = Some glast ∧
    get_dummy_point width length (goal_xy glast) = Some dm ∧
    track ag'
    = t0 ++ ((λ i, Some (GoalView i))
               <$> seq 0 (List.length pre + List.length rest))
         ++ [Some (Fresh dm)] ∧
    torch_cat ag' (track ag') = Ok tr ∧
    dynamics ag' = dynamics ag ++ [(tr, true)].
Proof.
  induction acts as [|a acts IH];
    intros offs rest pre ag t0 ag' Hoffs Hlen Hne Hg Htp Htr Ht0 Hrun; [done|].
  destruct rest as [|g rest]; [done|].
  apply Forall2_cons_inv_l in Hoffs as (o & offs' & Ho & Hoffs & ->).
  rewrite protocol_cons in Hrun. simpl in Hrun.
  inv_bind Hrun. rename a0 into ag1, a1 into ag2.
  apply bind_Ok in E as ([obs ag1'] & Hobs & [= ->]).
  apply bind_Ok in E0 as ([c ag2'] & Hext & [= ->]).
  assert (HL : List.length (intermediate_goals ag)
               = (List.length pre + S (List.length rest))%nat)
    by by rewrite Hg, length_app.
  apply get_state_single_agent_inv in Hobs as [Hag1 Htp1].
  rewrite (proj2 (Z.leb_gt _ _)) in Htp1 by lia.
  apply step_extend_Ok in Hext
    as (i & g0 & ac & Hi & Hg0 & Hac & Hg2 & Htp2 & _ & Hv2 & _ & -> & Hrest).
  rewrite Hag1 in Hi, Hg0, Hg2, Hrest, Hv2. simpl in Hi, Hg0, Hg2, Hv2.
  rewrite Htp1, Htp in Hi.
  replace (Z.of_nat (List.length pre) + 1 - 1) with
    (Z.of_nat (List.length pre)) in Hi by lia.
  destruct (py_index_nonneg (intermediate_goals ag)
              (Z.of_nat (List.length pre))) as (Hi' & _); [lia|].
  rewrite Hi', Nat2Z.id in Hi. injection Hi as <-.
  rewrite Hg, list_lookup_middle in Hg0 by done. injection Hg0 as <-.
  rewrite Ho in Hac. injection Hac as <-.
  rewrite Hg, insert_app_r_alt, Nat.sub_diag in Hg2 by done. simpl in Hg2.
  fold (shift_goal width g o) in Hg2.
  unfold completes_now in Hrest. rewrite Hag1 in Hrest. simpl in Hrest.
  rewrite Htr, HL, length_app, length_fmap, length_seq, Ht0 in Hrest.
  match type of Hrest with if ?b then _ else _ => destruct b eqn:Hc end;
    [apply Nat.eqb_eq in Hc|apply Nat.eqb_neq in Hc].
  - destruct rest as [|g' rest]; [|simpl in Hc; lia].
    destruct acts; [|done]. simpl in Hrun. injection Hrun as <-.
    destruct Hrest as (Htr2 & tr & Hcat & Hdy).
    destruct (get_dummy_point width length _) as [dm|] eqn:Hdm.
    2:{ apply torch_cat_no_None in Hcat. destruct Hcat. rewrite Htr2.
        apply elem_of_app. right. right. by left. }
    inversion Hoffs; subst. simpl.
    split; [done|]. split; [done|].
    exists (shift_goal width g o), dm, tr.
    split; [by rewrite Hg2, last_snoc|]. split; [done|].
    split; [|split; [done|by rewrite Hdy]].
    rewrite Htr2, views_snoc, <- !(assoc_L (++)). done.
  - destruct rest as [|g' rest]; [simpl in Hc; lia|].
    destruct Hrest as (Htr2 & Hdy).
    destruct (IH offs' (g' :: rest) (pre ++ [shift_goal width g o]) ag2 t0 ag')
      as (Hgoals & Hveh & glast & dm & tr & Hlast & Hdm & Htr' & Hcat & Hdy').
    + done.
    + simpl in Hlen |- *. lia.
    + destruct acts; [simpl in Hlen; lia|done].
    + by rewrite Hg2, <- (assoc_L (++)).
    + rewrite Htp2, Htp1, Htp, length_app. simpl. lia.
    + by rewrite Htr2, length_app, views_snoc, <- (assoc_L (++)).
    + done.
    + done.
    + split; [by rewrite Hgoals, <- (assoc_L (++))|].
      split; [by rewrite Hveh, Hv2|].
      exists glast, dm, tr. split; [done|]. split; [done|].
      split; [|split; [done|by rewrite Hdy', Hdy]].
      rewrite Htr', length_app. simpl.
      by replace (List.length pre + 1 + S (List.length rest))%nat
        with (List.length pre + S (S (List.length rest)))%nat by lia.
Qed.

(** X21: An episode of the full-offset variant, run with an observation read
    before every extension, one valid action per goal: when its calls
    return, goal k has been offset in place by the scaled catalog entry of
    action k, and the one track registered is the leading dummy point, the
    start position, the offset goals in order, and the dummy point of the
    last of them. *)
Theorem episode_registers_offset_goals (width length : Q) (ag : agent)
    (d0 : point) (acts : list Z) (offs : list point) (ag' : agent) :
  track ag = [Some (Fresh d0); Some PosView] →
  track_point ag = 0 →
  intermediate_goals ag ≠ [] →
  List.length acts = List.length (intermediate_goals ag) →
  Forall2 (λ a o, py_index actions_list a = Ok o) acts offs →
  run_calls width length ag (protocol acts) = Ok ag' →
  intermediate_goals ag'
  = zip_with (shift_goal width) (intermediate_goals ag) offs ∧
  ∃ glast dm,
    last (intermediate_goals ag') = Some glast ∧
    get_dummy_point width length (goal_xy glast) = Some dm ∧
    dynamics ag'
    = dynamics ag
      ++ [([d0; position (vehicle ag)]
           ++ (goal_xy <$> intermediate_goals ag') ++ [dm], true)].
Proof.
  intros Htr Htp Hne Hlen Hoffs Hrun.
  destruct (protocol_run width length acts offs (intermediate_goals ag) []
              ag [Some (Fresh d0); Some PosView] ag')
    as (Hgoals & Hveh & glast & dm & tr & Hlast & Hdm & Htr' & Hcat & Hdy);
    try done.
  { intros ->. by destruct (intermediate_goals ag). }
  simpl in Hgoals. split; [done|].
  exists glast, dm. split; [done|]. split; [done|].
  rewrite Hdy. do 3 f_equal.
  assert (Hn : List.length (intermediate_goals ag')
               = List.length (intermediate_goals ag)).
  { rewrite Hgoals, length_zip_with.
    apply Forall2_length in Hoffs. lia. }
  assert (Hexp : torch_cat ag' (track ag')
                 = Ok ([d0; position (vehicle ag)]
                       ++ (goal_xy <$> intermediate_goals ag') ++ [dm])).
  { rewrite Htr'. apply torch_cat_app; [simpl; by rewrite Hveh|].
    apply torch_cat_app; [|done]. cbn [List.length Nat.add].
    rewrite torch_cat_views by lia.
    by rewrite drop_0, <- Hn, firstn_all. }
  rewrite Hexp in Hcat. by injection Hcat as <-.
Qed.

Lemma episode_registers_offset_goals_witness :
  ∃ ag', run_calls 2 10 demo_agent (protocol [0; 48]) = Ok ag' ∧
         List.length (dynamics ag') = 1%nat.
Proof.
  eassert (Hrun : run_calls 2 10 demo_agent (protocol [0; 48]) = Ok _)
    by by vm_compute.
  eassert (Hoffs : Forall2 (λ a o, py_index actions_list a = Ok o)
                           [0; 48] [_; _]).
  { repeat (constructor; [by vm_compute|]). constructor. }
  eexists. split; [exact Hrun|].
  destruct (episode_registers_offset_goals 2 10 demo_agent
              (0, - (10 + 2 / 2))%Q [0; 48] _ _
              eq_refl eq_refl (λ H, nil_cons (eq_sym H)) eq_refl Hoffs Hrun)
    as (_ & glast & dm & _ & _ & Hdy).
  by rewrite Hdy.
Defined.

(** ** How far an extension moves a goal *)

Lemma actions_list_bounded :
  Forall (λ ac : point, (- (3 # 4) <= ac.1)%Q ∧ (ac.1 <= 3 # 4)%Q ∧
                        (- (3 # 4) <= ac.2)%Q ∧ (ac.2 <= 3 # 4)%Q)
         actions_list.
Proof.
  set (l := actions_list). vm_compute in l. subst l.
  repeat (constructor; [repeat split; by vm_compute|]). constructor.
Qed.

Lemma scaled_bound (a w : Q) :
  (0 <= w)%Q → (- (3 # 4) <= a)%Q → (a <= 3 # 4)%Q →
  (- ((3 # 8) * w) <= a * w / 2)%Q ∧ (a * w / 2 <= (3 # 8) * w)%Q.
Proof.
  intros Hw Hlo Hhi.
  pose proof (Qmult_le_compat_r _ _ w Hlo Hw) as H1.
  pose proof (Qmult_le_compat_r _ _ w Hhi Hw) as H2.
  rewrite Qdiv2. set (m := (a * w)%Q) in *. split; lra.
Qed.

(** X22: An extension that returns has written into one goal only, the one at
    the index [track_point - 1] stands for: its point has moved by at most
    3/8 of the width on each axis, its other entries and all the other
    goals are as they were. *)
Theorem step_extend_moves_one_goal (width length : Q) (ag : agent)
    (action : Z) (c : bool) (ag' : agent) :
  (0 <= width)%Q →
  step_extend width length ag action = Ok (c, ag') →
  ∃ i g g',
    py_norm (List.length (intermediate_goals ag)) (track_point ag - 1) = Some i ∧
    intermediate_goals ag !! i = Some g ∧
    intermediate_goals ag' !! i = Some g' ∧
    goal_rest g' = goal_rest g ∧
    (∀ j, j ≠ i → intermediate_goals ag' !! j = intermediate_goals ag !! j) ∧
    (- ((3 # 8) * width) <= (goal_xy g').1 - (goal_xy g).1)%Q ∧
    ((goal_xy g').1 - (goal_xy g).1 <= (3 # 8) * width)%Q ∧
    (- ((3 # 8) * width) <= (goal_xy g').2 - (goal_xy g).2)%Q ∧
    ((goal_xy g').2 - (goal_xy g).2 <= (3 # 8) * width)%Q.
Proof.
  intros Hw H.
  apply step_extend_Ok in H as (i & g & ac & Hi & Hg & Hac & Hg' & _).
  apply py_index_Ok in Hac as (k & _ & Hk).
  pose proof (Forall_lookup_1 _ _ _ _ actions_list_bounded Hk)
    as (Hx1 & Hx2 & Hy1 & Hy2).
  destruct (scaled_bound _ _ Hw Hx1 Hx2) as [Hsx1 Hsx2].
  destruct (scaled_bound _ _ Hw Hy1 Hy2) as [Hsy1 Hsy2].
  eexists i, g, _. split; [done|]. split; [done|].
  split.
  { rewrite Hg'. apply list_lookup_insert_eq. by eapply lookup_lt_Some. }
  split; [done|].
  split.
  { intros j Hj. rewrite Hg'. by apply list_lookup_insert_ne. }
  unfold padd, scale_offset. cbn [goal_xy fst snd].
  set (dx := (ac.1 * width / 2)%Q) in *.
  set (dy := (ac.2 * width / 2)%Q) in *.
  repeat split; lra.
Qed.

Lemma step_extend_moves_one_goal_witness :
  ∃ c ag' g',
    step_extend 2 10 demo_agent 0 = Ok (c, ag') ∧
    intermediate_goals ag' !! 1%nat = Some g' ∧
    (3 - (3 # 8) * 2 <= (goal_xy g').1)%Q.
Proof.
  eassert (H : step_extend 2 10 demo_agent 0 = Ok (_, _)) by by vm_compute.
  assert (Hw : (0 <= 2)%Q) by by vm_compute.
  destruct (step_extend_moves_one_goal 2 10 demo_agent 0 _ _ Hw H)
    as (i & g & g' & Hi & Hg & Hg' & _ & _ & Hlo & _).
  vm_compute in Hi. injection Hi as <-.
  vm_compute in Hg. injection Hg as <-.
  do 2 eexists. exists g'. split; [exact H|]. split; [exact Hg'|].
  cbn [goal_xy fst] in Hlo. lra.
Defined.
